(** * lyrlib-api: a shallow embedding of the request-orchestration core

    The embedding follows the TypeScript sources:
    - [src/rateLimiter.ts]  (module [RateLimiter]),
    - [src/cache.ts]        (module [Cache]),
    - [src/utils.ts]        (module [Utils]),
    - [src/client.ts]       (module [Client]),
    - [src/types.ts]        (the records and the error classes).

    Conventions.
    - A JavaScript [number] that the code uses as a count, a duration or a
      timestamp in milliseconds is an integer of [Z]; [NaN] is [None] in
      [JS.number].  Fractions and the limits of double precision are outside
      the model.
    - A JavaScript string is a [string]: a sequence of code units below 256
      (Latin-1).  [trim] and [toLowerCase] are the ECMAScript functions
      restricted to that range.
    - [Date.now ()] is an explicit argument [now], or the clock of the
      [Client.World].
    - [throw] is the constructor [Throw] of [result]. *)

From Stdlib Require Import ZArith QArith Lqa Ascii String.
From stdpp Require Import base tactics option list numbers strings pretty sorting gmap.

Local Open Scope Z_scope.

(** ** JavaScript values and the built-ins the sources call *)

Module JS.

(** The error classes of [src/types.ts]; [Error] is the built-in class. *)
Inductive error :=
| Error (message : string)
| RateLimitError (message : string)
| NotFoundError (message : string)
| TimeoutError (message : string)
| ValidationError (message : string).

Definition message (e : error) : string :=
  match e with
  | Error m | RateLimitError m | NotFoundError m | TimeoutError m
  | ValidationError m => m
  end.

(** A call either returns or throws. *)
Inductive result (A : Type) :=
| Ok (a : A)
| Throw (e : error).
Global Arguments Ok {A} a.
Global Arguments Throw {A} e.

(** Primitive values, as far as the sources handle them. *)
Inductive value :=
| VUndefined
| VNull
| VBool (b : bool)
| VNum (n : Z)
| VStr (s : string).

(** [ToBoolean]. *)
Definition truthy (v : value) : bool :=
  match v with
  | VUndefined | VNull => false
  | VBool b => b
  | VNum n => negb (n =? 0)
  | VStr s => match s with EmptyString => false | String _ _ => true end
  end.

(** [typeof v === 'string']. *)
Definition is_string (v : value) : bool :=
  match v with VStr _ => true | _ => false end.

(** [ToString], the conversion of a template literal. *)
Definition to_string (v : value) : string :=
  match v with
  | VUndefined => "undefined"
  | VNull => "null"
  | VBool true => "true"
  | VBool false => "false"
  | VNum n => pretty n
  | VStr s => s
  end.

(** Numbers that may be [NaN]. *)
Definition number := option Z.

(** [Math.floor (x / k)] for an integer [x] and [0 < k]. *)
Definition floor_div (x : number) (k : Z) : number := (λ n, n `div` k) <$> x.

(** [x % k]: the remainder has the sign of the dividend. *)
Definition remainder (x : number) (k : Z) : number := (λ n, n `rem` k) <$> x.

(** [Math.ceil (x / k)] for an integer [x] and [0 < k]. *)
Definition ceil_div (x k : Z) : Z := - ((- x) `div` k).

(** [x.toString ()]. *)
Definition number_toString (x : number) : string :=
  match x with Some n => pretty n | None => "NaN" end.

(** White space and line terminators below 256: TAB, LF, VT, FF, CR, SP and
    NBSP. *)
Definition is_white_space (c : ascii) : bool :=
  let n := nat_of_ascii c in
  ((9 <=? n)%nat && (n <=? 13)%nat) || (n =? 32)%nat || (n =? 160)%nat.

Fixpoint trimStart (s : string) : string :=
  match s with
  | EmptyString => EmptyString
  | String c s' => if is_white_space c then trimStart s' else s
  end.

Definition trimEnd (s : string) : string :=
  String.rev (trimStart (String.rev s)).

(** [s.trim ()]. *)
Definition trim (s : string) : string := trimEnd (trimStart s).

(** Upper-case letters below 256 are A-Z, and U+00C0-U+00DE without the
    multiplication sign U+00D7; each lower-case form is 32 above. *)
Definition lower_char (c : ascii) : ascii :=
  let n := nat_of_ascii c in
  if ((65 <=? n)%nat && (n <=? 90)%nat)
     || ((192 <=? n)%nat && (n <=? 222)%nat && negb (n =? 215)%nat)
  then ascii_of_nat (n + 32) else c.

(** [s.toLowerCase ()]. *)
Fixpoint toLowerCase (s : string) : string :=
  match s with
  | EmptyString => EmptyString
  | String c s' => String (lower_char c) (toLowerCase s')
  end.

(** [n] copies of [s]. *)
Fixpoint repeat_string (n : nat) (s : string) : string :=
  match n with
  | O => EmptyString
  | S n' => s +:+ repeat_string n' s
  end.

(** [s.padStart (targetLength, padString)]. *)
Definition padStart (s : string) (targetLength : nat) (padString : string)
  : string :=
  let len := String.length s in
  if (targetLength <=? len)%nat then s
  else match padString with
       | EmptyString => s
       | _ =>
         let fillLen := (targetLength - len)%nat in
         String.substring 0 fillLen (repeat_string fillLen padString) +:+ s
       end.

(** [parts.join (sep)]. *)
Fixpoint join (sep : string) (parts : list string) : string :=
  match parts with
  | [] => EmptyString
  | [p] => p
  | p :: rest => p +:+ sep +:+ join sep rest
  end.

(** The line feed of ['\n']. *)
Definition LF : string := String (ascii_of_nat 10) EmptyString.

(** [JSON.stringify] of a string: the quoted form. *)
Definition dquote : string := String (ascii_of_nat 34) EmptyString.
Definition backslash : string := String (ascii_of_nat 92) EmptyString.

Definition hex_digit (n : nat) : string :=
  String.substring n 1 "0123456789abcdef".

Definition json_escape (c : ascii) : string :=
  let n := nat_of_ascii c in
  if (n =? 34)%nat then backslash +:+ dquote
  else if (n =? 92)%nat then backslash +:+ backslash
  else if (n =? 8)%nat then backslash +:+ "b"
  else if (n =? 9)%nat then backslash +:+ "t"
  else if (n =? 10)%nat then backslash +:+ "n"
  else if (n =? 12)%nat then backslash +:+ "f"
  else if (n =? 13)%nat then backslash +:+ "r"
  else if (n <? 32)%nat
    then backslash +:+ "u00" +:+ hex_digit (n / 16) +:+ hex_digit (n mod 16)
  else String c EmptyString.

Fixpoint json_escape_all (s : string) : string :=
  match s with
  | EmptyString => EmptyString
  | String c s' => json_escape c +:+ json_escape_all s'
  end.

Definition json_quote (s : string) : string :=
  dquote +:+ json_escape_all s +:+ dquote.

(** Plain objects: the own properties in property order. *)
Definition object := list (string * value).

(** [Object.keys (o)]. *)
Definition keys (o : object) : list string := o.*1.

(** [o[k]]. *)
Fixpoint get (o : object) (k : string) : value :=
  match o with
  | [] => VUndefined
  | (k', v) :: o' => if String.eqb k' k then v else get o' k
  end.

(** [o[k] = v]: an own property keeps its place, a new one goes last. *)
Fixpoint set (o : object) (k : string) (v : value) : object :=
  match o with
  | [] => [(k, v)]
  | (k', v') :: o' =>
    if String.eqb k' k then (k', v) :: o' else (k', v') :: set o' k v
  end.

(** [{ ...a, ...b }]. *)
Definition spread (a b : object) : object :=
  foldl (λ o kv, set o kv.1 kv.2) a b.

(** An optional property of a typed object: absent when [None]. *)
Definition optional {A} (k : string) (f : A → value) (x : option A)
  : object :=
  match x with Some a => [(k, f a)] | None => [] end.

(** [keys.sort ()]: the default order compares code units. *)
Definition sort (l : list string) : list string := merge_sort String.le l.

End JS.

Export JS (error(..), result(..), value(..)).

(** ** src/rateLimiter.ts *)

Module RateLimiter.

(** [RateLimitState] of [src/types.ts]. *)
Record RateLimitState := mkState {
  requests : Z;
  windowStart : Z;
  isLimited : bool;
}.

Record t := mk {
  state : RateLimitState;
  maxRequests : Z;
  windowMs : Z;
}.

(** [new RateLimiter (maxRequests = 60, windowMs = 60000)]; the field
    initialiser reads the clock. *)
Definition new (maxRequests windowMs : option Z) (now : Z) : t :=
  {| state := {| requests := 0; windowStart := now; isLimited := false |};
     maxRequests := default 60 maxRequests;
     windowMs := default 60000 windowMs |}.

Definition set_state (rl : t) (s : RateLimitState) : t :=
  {| state := s; maxRequests := maxRequests rl; windowMs := windowMs rl |}.

Definition limit_message (waitTime : Z) : string :=
  "Rate limit exceeded. Try again in "
    +:+ pretty (JS.ceil_div waitTime 1000) +:+ " seconds.".

Definition checkLimit (now : Z) (rl : t) : result unit * t :=
  let timeSinceWindowStart := now - windowStart (state rl) in
  (* Reset window if it has passed *)
  let s1 :=
    if windowMs rl <=? timeSinceWindowStart
    then {| requests := 0; windowStart := now; isLimited := false |}
    else state rl in
  (* Check if we've exceeded the limit *)
  if maxRequests rl <=? requests s1 then
    let s2 := {| requests := requests s1; windowStart := windowStart s1;
                 isLimited := true |} in
    let resetTime := windowStart s2 + windowMs rl in
    let waitTime := resetTime - now in
    (Throw (RateLimitError (limit_message waitTime)), set_state rl s2)
  else
    (* Increment request count *)
    (Ok (), set_state rl {| requests := requests s1 + 1;
                            windowStart := windowStart s1;
                            isLimited := isLimited s1 |}).

Record Status := mkStatus {
  st_requests : Z;
  st_maxRequests : Z;
  st_resetTime : Z;
  st_isLimited : bool;
}.

Definition getStatus (rl : t) : Status :=
  let resetTime := windowStart (state rl) + windowMs rl in
  {| st_requests := requests (state rl);
     st_maxRequests := maxRequests rl;
     st_resetTime := resetTime;
     st_isLimited := isLimited (state rl) |}.

Definition reset (now : Z) (rl : t) : t :=
  set_state rl {| requests := 0; windowStart := now; isLimited := false |}.

(** The calls a holder of the limiter can make, and a run of them. *)
Inductive call :=
| CheckLimit (now : Z)
| GetStatus
| Reset (now : Z).

Definition step (rl : t) (c : call) : t :=
  match c with
  | CheckLimit now => (checkLimit now rl).2
  | GetStatus => rl
  | Reset now => reset now rl
  end.

Definition run (rl : t) (cs : list call) : t := foldl step rl cs.

End RateLimiter.

(** ** src/cache.ts *)

Module Cache.

(** [CacheEntry<T>] of [src/types.ts]. *)
Record CacheEntry (T : Type) := mkEntry {
  data : T;
  timestamp : Z;
  ttl : Z;
}.
Global Arguments mkEntry {T} _ _ _.
Global Arguments data {T} _.
Global Arguments timestamp {T} _.
Global Arguments ttl {T} _.

(** The private [Map] and the default lifetime. *)
Record t (T : Type) := mk {
  cache : gmap string (CacheEntry T);
  defaultTTL : Z;
}.
Global Arguments mk {T} _ _.
Global Arguments cache {T} _.
Global Arguments defaultTTL {T} _.

Section methods.
Context {T : Type}.

(** [new Cache (defaultTTL = 300000)]. *)
Definition new (defaultTTL : option Z) : t T :=
  {| cache := ∅; defaultTTL := default 300000 defaultTTL |}.

Definition set_cache (c : t T) (m : gmap string (CacheEntry T)) : t T :=
  {| cache := m; defaultTTL := defaultTTL c |}.

(** [Date.now () - entry.timestamp > entry.ttl]. *)
Definition expired (now : Z) (entry : CacheEntry T) : bool :=
  ttl entry <? now - timestamp entry.

(** [get (key)]; [null] is [None]. *)
Definition get (now : Z) (key : string) (c : t T) : option T * t T :=
  match cache c !! key with
  | None => (None, c)
  | Some entry =>
    (* Check if entry has expired *)
    if expired now entry
    then (None, set_cache c (delete key (cache c)))
    else (Some (data entry), c)
  end.

(** [set (key, value, ttl?)]. *)
Definition set (now : Z) (key : string) (value : T) (ttl : option Z)
    (c : t T) : t T :=
  let entry := {| data := value; timestamp := now;
                  ttl := default (defaultTTL c) ttl |} in
  set_cache c (<[key := entry]> (cache c)).

(** [delete (key)]: [Map.delete] tells whether the key was there. *)
Definition delete (key : string) (c : t T) : bool * t T :=
  (bool_decide (is_Some (cache c !! key)),
   set_cache c (base.delete key (cache c))).

Definition clear (c : t T) : t T := set_cache c ∅.

Definition size (c : t T) : nat := base.size (cache c).

(** [clean ()]: one reading of the clock, then every expired entry is
    deleted and counted. *)
Definition clean (now : Z) (c : t T) : nat * t T :=
  let gone := filter (λ kv, expired now kv.2 = true) (cache c) in
  let kept := filter (λ kv, expired now kv.2 = false) (cache c) in
  (base.size gone, set_cache c kept).

End methods.

(** [Cache.generateKey (prefix, query)]. *)
Definition generateKey (prefix : string) (query : JS.object) : string :=
  let sortedKeys := JS.sort (JS.keys query) in
  let keyParts :=
    (λ key, key +:+ ":" +:+ JS.to_string (JS.get query key)) <$> sortedKeys in
  prefix +:+ ":" +:+ JS.join "|" keyParts.

End Cache.

(** ** src/types.ts *)

(** [LyricsQuery]: validated, so the fields are strings. *)
Record LyricsQuery := mkQuery {
  track_name : string;
  artist_name : string;
  album_name : option string;
}.

(** [Partial<LyricsQuery>] as [validateQuery] sees it at run time: any value
    may sit in a field, and a missing field reads as [undefined]. *)
Record PartialQuery := mkPartial {
  p_track_name : value;
  p_artist_name : value;
  p_album_name : value;
}.

(** [TrackMetadata]; [null] and [undefined] lyrics are both [None]. *)
Record TrackMetadata := mkMetadata {
  id : Z;
  name : string;
  trackName : string;
  artistName : string;
  albumName : string;
  duration : Z;
  instrumental : bool;
  plainLyrics : option string;
  syncedLyrics : option string;
}.

(** [UnsyncedLyricsLine] and [SyncedLyricsLine] are one kind of object at
    run time: [startTime] is [None] when the line has no such property. *)
Record LyricsLine := mkLine {
  text : string;
  startTime : option Z;
}.

Inductive LyricsFormat := plain | lrc | json.

Record FormattedLyrics := mkFormatted {
  content : string;
  format : LyricsFormat;
  metadata : option TrackMetadata;
}.

(** [SearchResult]; the score is the exact rational. *)
Record SearchResult := mkSearchResult {
  sr_metadata : TrackMetadata;
  score : Q;
  hasSyncedLyrics : bool;
  hasUnsyncedLyrics : bool;
}.

(** ** src/utils.ts *)

Module Utils.

(** [JSON.stringify (lyrics, null, 2)] for an array of lines, the property
    [text] before [startTime]. *)
Definition json_line (line : LyricsLine) : string :=
  "{" +:+ JS.LF
  +:+ "    " +:+ JS.json_quote "text" +:+ ": " +:+ JS.json_quote (text line)
  +:+ match startTime line with
      | Some t =>
        "," +:+ JS.LF +:+ "    " +:+ JS.json_quote "startTime" +:+ ": "
        +:+ pretty t
      | None => ""
      end
  +:+ JS.LF +:+ "  }".

Definition JSON_stringify (lyrics : list LyricsLine) : string :=
  match lyrics with
  | [] => "[]"
  | _ =>
    "[" +:+ JS.LF
    +:+ JS.join ("," +:+ JS.LF) ((λ line, "  " +:+ json_line line) <$> lyrics)
    +:+ JS.LF +:+ "]"
  end.

(** [lyrics.length > 0 && 'startTime' in lyrics[0]]. *)
Definition isSyncedLyrics (lyrics : list LyricsLine) : bool :=
  (0 <? length lyrics)%nat
  && match lyrics !! 0%nat with
     | Some line => bool_decide (is_Some (startTime line))
     | None => false
     end.

(** A line without [startTime] reads [undefined], and the arithmetic on it
    gives [NaN]. *)
Definition formatToLRC (lyrics : list LyricsLine) : string :=
  JS.join JS.LF
    ((λ line,
        let minutes := JS.floor_div (startTime line) 60000 in
        let seconds :=
          JS.floor_div (JS.remainder (startTime line) 60000) 1000 in
        let centiseconds :=
          JS.floor_div (JS.remainder (startTime line) 1000) 10 in
        let timestamp :=
          "[" +:+ JS.padStart (JS.number_toString minutes) 2 "0"
          +:+ ":" +:+ JS.padStart (JS.number_toString seconds) 2 "0"
          +:+ "." +:+ JS.padStart (JS.number_toString centiseconds) 2 "0"
          +:+ "]" in
        timestamp +:+ text line) <$> lyrics).

Definition formatLyrics (lyrics : list LyricsLine) (format : LyricsFormat)
    (metadata : option TrackMetadata) : result FormattedLyrics :=
  match format with
  | plain =>
    Ok {| content := JS.join JS.LF (text <$> lyrics);
          format := plain;
          metadata := metadata |}
  | lrc =>
    if negb (isSyncedLyrics lyrics)
    then Throw (ValidationError "LRC format requires synced lyrics")
    else Ok {| content := formatToLRC lyrics;
               format := lrc;
               metadata := metadata |}
  | json =>
    Ok {| content := JSON_stringify lyrics;
          format := json;
          metadata := metadata |}
  end.

(** The table of [calculateSimilarity]: [null] cells are [None]. *)
Abbreviation matrix := (list (list (option nat))).

(** [Array (rows).fill (null).map (() => Array (cols).fill (null))]. *)
Definition matrix_new (rows cols : nat) : matrix :=
  replicate rows (replicate cols None).

(** [matrix[j][i]] as a number; every read of the loops below is of a cell
    written before. *)
Definition mget (M : matrix) (j i : nat) : nat :=
  match M !! j with
  | Some row => match row !! i with Some (Some v) => v | _ => 0%nat end
  | None => 0%nat
  end.

(** [matrix[j][i] = v]. *)
Definition mset (M : matrix) (j i : nat) (v : nat) : matrix :=
  alter (λ row, <[i := Some v]> row) j M.

(** [s1[i - 1] === s2[j - 1] ? 0 : 1]. *)
Definition cost (s1 s2 : string) (i j : nat) : nat :=
  if decide (String.get (i - 1) s1 = String.get (j - 1) s2)
  then 0%nat else 1%nat.

Definition fill_first_row (s1 : string) (M : matrix) : matrix :=
  foldl (λ M i, mset M 0 i i) M (seq 0 (S (String.length s1))).

Definition fill_first_column (s2 : string) (M : matrix) : matrix :=
  foldl (λ M j, mset M j 0 j) M (seq 0 (S (String.length s2))).

Definition fill_cell (s1 s2 : string) (j : nat) (M : matrix) (i : nat)
  : matrix :=
  mset M j i
    (Nat.min (mget M j (i - 1) + 1)                (* deletion *)
       (Nat.min (mget M (j - 1) i + 1)             (* insertion *)
          (mget M (j - 1) (i - 1) + cost s1 s2 i j)))%nat (* substitution *).

Definition fill_table (s1 s2 : string) (M : matrix) : matrix :=
  foldl (λ M j, foldl (fill_cell s1 s2 j) M (seq 1 (String.length s1)))
    M (seq 1 (String.length s2)).

Definition levenshtein_table (s1 s2 : string) : matrix :=
  fill_table s1 s2
    (fill_first_column s2
       (fill_first_row s1
          (matrix_new (String.length s2 + 1) (String.length s1 + 1)))).

(** The result is the exact quotient. *)
Definition calculateSimilarity (str1 str2 : string) : Q :=
  let s1 := JS.trim (JS.toLowerCase str1) in
  let s2 := JS.trim (JS.toLowerCase str2) in
  if String.eqb s1 s2 then 1%Q
  else
    let matrix := levenshtein_table s1 s2 in
    let maxLength := Nat.max (String.length s1) (String.length s2) in
    if (maxLength =? 0)%nat then 1%Q
    else
      let distance := mget matrix (String.length s2) (String.length s1) in
      Qmake (Z.of_nat maxLength - Z.of_nat distance) (Pos.of_nat maxLength).

(** A string in a condition: the empty string is falsy. *)
Definition nonempty (s : string) : bool :=
  match s with EmptyString => false | String _ _ => true end.

(** The sums are the exact rationals. *)
Definition calculateSearchScore (query : LyricsQuery)
    (metadata : TrackMetadata) : Q :=
  let '(score, factors) := (0%Q, 0%Q) in
  (* Track name similarity *)
  let '(score, factors) :=
    if nonempty (track_name query)
    then ((score + calculateSimilarity (track_name query)
                     (trackName metadata) * (4 # 10))%Q,
          (factors + (4 # 10))%Q)
    else (score, factors) in
  (* Artist name similarity *)
  let '(score, factors) :=
    if nonempty (artist_name query)
    then ((score + calculateSimilarity (artist_name query)
                     (artistName metadata) * (4 # 10))%Q,
          (factors + (4 # 10))%Q)
    else (score, factors) in
  (* Album name similarity (bonus) *)
  let '(score, factors) :=
    match album_name query with
    | Some album =>
      if nonempty album && nonempty (albumName metadata)
      then ((score + calculateSimilarity album (albumName metadata)
                     * (2 # 10))%Q,
            (factors + (2 # 10))%Q)
      else (score, factors)
    | None => (score, factors)
    end in
  if Qlt_le_dec 0 factors then (score / factors)%Q else 0%Q.

(** [typeof v !== 'string' || v.trim ().length === 0]. *)
Definition not_string_or_blank (v : value) : bool :=
  match v with
  | VStr s => (String.length (JS.trim s) =? 0)%nat
  | _ => true
  end.

(** [v.trim ()] where [v] is known to be a string. *)
Definition trim_value (v : value) : string :=
  match v with VStr s => JS.trim s | _ => EmptyString end.

Definition validateQuery (query : PartialQuery) : result LyricsQuery :=
  if negb (JS.truthy (p_track_name query))
     || negb (JS.truthy (p_artist_name query))
  then Throw (ValidationError "track_name and artist_name are required")
  else if not_string_or_blank (p_track_name query)
  then Throw (ValidationError "track_name must be a non-empty string")
  else if not_string_or_blank (p_artist_name query)
  then Throw (ValidationError "artist_name must be a non-empty string")
  else if JS.truthy (p_album_name query)
          && not_string_or_blank (p_album_name query)
  then Throw (ValidationError
                "album_name must be a non-empty string when provided")
  else
    let result := {| track_name := trim_value (p_track_name query);
                     artist_name := trim_value (p_artist_name query);
                     album_name := None |} in
    if JS.truthy (p_album_name query)
    then Ok {| track_name := track_name result;
               artist_name := artist_name result;
               album_name := Some (trim_value (p_album_name query)) |}
    else Ok result.

Definition createSearchResult (metadata : TrackMetadata)
    (query : LyricsQuery) : SearchResult :=
  {| sr_metadata := metadata;
     score := calculateSearchScore query metadata;
     hasSyncedLyrics := from_option nonempty false (syncedLyrics metadata);
     hasUnsyncedLyrics := from_option nonempty false (plainLyrics metadata) |}.

(** [xs.sort (comparefn)]: the built-in sort is stable; an element moves
    behind a later one only if [comparefn] of the two is more than 0. *)
Fixpoint insert_by {A} (comparefn : A → A → Q) (x : A) (xs : list A)
  : list A :=
  match xs with
  | [] => [x]
  | y :: xs' =>
    if Qlt_le_dec 0 (comparefn x y) then y :: insert_by comparefn x xs'
    else x :: xs
  end.

Definition sort_by {A} (comparefn : A → A → Q) (xs : list A) : list A :=
  foldr (insert_by comparefn) [] xs.

Definition sortSearchResults (results : list SearchResult)
  : list SearchResult :=
  sort_by (λ a b, (score b - score a)%Q) results.

(** [retry (fn, maxRetries = 3, baseDelay = 1000)].  The calls of [fn] are
    numbered from 0, and [fn i] is what call [i] settles to.  The result
    comes with the number of calls made and the sum of the delays waited
    for.  [remaining] is [maxRetries - i]. *)
Fixpoint retry_from {T} (fn : nat → result T) (baseDelay : Z)
    (remaining : nat) (i : nat) : result T * nat * Z :=
  match fn i with
  | Ok a => (Ok a, S i, 0)
  | Throw lastError =>
    match remaining with
    | O => (Throw lastError, S i, 0) (* i === maxRetries *)
    | S remaining' =>
      let delay := baseDelay * 2 ^ Z.of_nat i in
      let '(r, calls, waited) := retry_from fn baseDelay remaining' (S i) in
      (r, calls, delay + waited)
    end
  end.

(** With a negative [maxRetries] the loop is not entered and [undefined] is
    thrown: [None]. *)
Definition retry {T} (fn : nat → result T) (maxRetries baseDelay : option Z)
  : option (result T * nat * Z) :=
  let maxRetries := default 3 maxRetries in
  let baseDelay := default 1000 baseDelay in
  if maxRetries <? 0 then None
  else Some (retry_from fn baseDelay (Z.to_nat maxRetries) 0).

End Utils.

(** ** src/client.ts *)

Module Client.

(** [ClientOptions]: every property is optional. *)
Record ClientOptions := mkClientOptions {
  co_enableCache : option bool;
  co_cacheTTL : option Z;
  co_enableRateLimit : option bool;
  co_maxRequestsPerMinute : option Z;
  co_requestTimeout : option Z;
  co_userAgent : option string;
}.

(** [Required<ClientOptions>]. *)
Record Options := mkOptions {
  enableCache : bool;
  cacheTTL : Z;
  enableRateLimit : bool;
  maxRequestsPerMinute : Z;
  requestTimeout : Z;
  userAgent : string;
}.

(** [SearchOptions] and [LyricsOptions] of [src/types.ts], and the options
    of [getUnsynced] and [getSynced]. *)
Record SearchOptions := mkSearchOptions {
  limit : option Z;
  include_metadata : option bool;
  prefer_synced : option bool;
}.

Record LyricsOptions := mkLyricsOptions {
  synced : option bool;
  includeMetadata : option bool;
  lo_format : option LyricsFormat;
}.

Record FormatOptions := mkFormatOptions {
  fo_includeMetadata : option bool;
  fo_format : option LyricsFormat;
}.

(** The argument of [getLyricsByMetadata]. *)
Record MetadataQuery := mkMetadataQuery {
  title : string;
  artist : string;
  album : option string;
}.

(** The typed objects as the property lists that a spread copies. *)
Definition format_value (f : LyricsFormat) : value :=
  VStr match f with plain => "plain" | lrc => "lrc" | json => "json" end.

Definition search_options_object (o : SearchOptions) : JS.object :=
  JS.optional "limit" VNum (limit o)
  ++ JS.optional "include_metadata" VBool (include_metadata o)
  ++ JS.optional "prefer_synced" VBool (prefer_synced o).

Definition lyrics_options_object (o : LyricsOptions) : JS.object :=
  JS.optional "synced" VBool (synced o)
  ++ JS.optional "includeMetadata" VBool (includeMetadata o)
  ++ JS.optional "format" format_value (lo_format o).

Definition format_options_object (o : FormatOptions) : JS.object :=
  JS.optional "includeMetadata" VBool (fo_includeMetadata o)
  ++ JS.optional "format" format_value (fo_format o).

Definition query_object (q : LyricsQuery) : JS.object :=
  [("track_name", VStr (track_name q)); ("artist_name", VStr (artist_name q))]
  ++ JS.optional "album_name" VStr (album_name q).

(** A validated query handed to a method that validates again. *)
Definition query_partial (q : LyricsQuery) : PartialQuery :=
  {| p_track_name := VStr (track_name q);
     p_artist_name := VStr (artist_name q);
     p_album_name := from_option VStr VUndefined (album_name q) |}.

(** What the cache of a client holds. *)
Inductive Cached :=
| CResults (results : list SearchResult)
| CLyrics (lyrics : FormattedLyrics)
| CMetadata (metadata : TrackMetadata).

(** A promise of the provider: it resolves or rejects after [latency]
    milliseconds, or stays pending. *)
Inductive promise (A : Type) :=
| Resolves (latency : Z) (a : A)
| Rejects (latency : Z) (message : string)
| Pending.
Global Arguments Resolves {A} latency a.
Global Arguments Rejects {A} latency message.
Global Arguments Pending {A}.

(** The [lrclib-api] client, an external collaborator. *)
Record LrclibClient := mkLrclib {
  lrclib_findLyrics : LyricsQuery → promise (option TrackMetadata);
  lrclib_getSynced : LyricsQuery → promise (option (list LyricsLine));
  lrclib_getUnsynced : LyricsQuery → promise (option (list LyricsLine));
}.

(** The fields of a client, and the clock that [Date.now ()] reads. *)
Record t := mk {
  cache : Cache.t Cached;
  rateLimiter : RateLimiter.t;
  options : Options;
}.

Record World := mkWorld {
  client : t;
  now : Z;
}.

Definition set_cache (w : World) (c : Cache.t Cached) : World :=
  {| client := {| cache := c; rateLimiter := rateLimiter (client w);
                  options := options (client w) |};
     now := now w |}.

Definition set_rateLimiter (w : World) (rl : RateLimiter.t) : World :=
  {| client := {| cache := cache (client w); rateLimiter := rl;
                  options := options (client w) |};
     now := now w |}.

Definition advance (dt : Z) (w : World) : World :=
  {| client := client w; now := now w + dt |}.

(** [new Client (options = {})]. *)
Definition new (o : ClientOptions) (now : Z) : World :=
  let options :=
    {| enableCache := default true (co_enableCache o);
       cacheTTL := default 300000 (co_cacheTTL o);
       enableRateLimit := default true (co_enableRateLimit o);
       maxRequestsPerMinute := default 60 (co_maxRequestsPerMinute o);
       requestTimeout := default 10000 (co_requestTimeout o);
       userAgent := default "lyrlib-api/1.0.0" (co_userAgent o) |} in
  {| client :=
       {| cache := Cache.new (Some (cacheTTL options));
          rateLimiter :=
            RateLimiter.new (Some (maxRequestsPerMinute options))
              (Some 60000) now;
          options := options |};
     now := now |}.

(** Methods run in a world and return or throw. *)
Definition M (A : Type) : Type := World → result A * World.

Definition ret {A} (a : A) : M A := λ w, (Ok a, w).

Definition throw {A} (e : error) : M A := λ w, (Throw e, w).

Definition bind {A B} (m : M A) (k : A → M B) : M B :=
  λ w, match m w with
       | (Ok a, w') => k a w'
       | (Throw e, w') => (Throw e, w')
       end.

(** [try { m } catch (error) { handler }]. *)
Definition try_catch {A} (m : M A) (handler : error → M A) : M A :=
  λ w, match m w with
       | (Ok a, w') => (Ok a, w')
       | (Throw e, w') => handler e w'
       end.

Definition lift {A} (r : result A) : M A := λ w, (r, w).

Definition when (b : bool) (m : M unit) : M unit := if b then m else ret ().

Declare Scope client_scope.
Delimit Scope client_scope with client.
Notation "'let*' x ':=' m 'in' k" := (bind m (λ x, k))
  (at level 10, x binder, m at level 100, k at level 200) : client_scope.
Local Open Scope client_scope.

Definition get_options : M Options := λ w, (Ok (options (client w)), w).

(** [this.cache.get (key)]. *)
Definition cache_get (key : string) : M (option Cached) :=
  λ w, let '(r, c) := Cache.get (now w) key (cache (client w)) in
       (Ok r, set_cache w c).

(** [this.cache.set (key, value)]. *)
Definition cache_set (key : string) (value : Cached) : M unit :=
  λ w, (Ok (), set_cache w (Cache.set (now w) key value None
                              (cache (client w)))).

(** [this.rateLimiter.checkLimit ()]. *)
Definition check_limit : M unit :=
  λ w, let '(r, rl) := RateLimiter.checkLimit (now w)
                         (rateLimiter (client w)) in
       (r, set_rateLimiter w rl).

(** [await this.withTimeout (fn, timeoutMs)]: the promise races a timer;
    the timer wins unless the promise settles before [timeoutMs]. *)
Definition withTimeout {A} (fn : promise A) (timeoutMs : Z) : M A :=
  λ w, match fn with
       | Resolves latency a =>
         if latency <? timeoutMs then (Ok a, advance latency w)
         else (Throw (TimeoutError "Request timeout"), advance timeoutMs w)
       | Rejects latency message =>
         if latency <? timeoutMs then (Throw (Error message), advance latency w)
         else (Throw (TimeoutError "Request timeout"), advance timeoutMs w)
       | Pending =>
         (Throw (TimeoutError "Request timeout"), advance timeoutMs w)
       end.

(** The adapters; the provider's metadata has the fields of
    [TrackMetadata]. *)
Definition adaptLrclibMetadata (metadata : TrackMetadata) : TrackMetadata :=
  {| id := id metadata; name := name metadata;
     trackName := trackName metadata; artistName := artistName metadata;
     albumName := albumName metadata; duration := duration metadata;
     instrumental := instrumental metadata;
     plainLyrics := plainLyrics metadata;
     syncedLyrics := syncedLyrics metadata |}.

Definition adaptQueryForLrclib (query : LyricsQuery) : LyricsQuery :=
  {| track_name := track_name query;
     artist_name := artist_name query;
     album_name := match album_name query with
                   | Some a => if Utils.nonempty a then Some a else None
                   | None => None
                   end |}.

Definition adaptLrclibLyrics (lyrics : option (list LyricsLine))
  : list LyricsLine :=
  match lyrics with
  | None => []
  | Some lyrics => lyrics
  end.

(** [[x].slice (0, limit)] for a number [limit]: a negative end counts
    from the end of the array. *)
Definition slice_one {A} (x : A) (limit : Z) : list A :=
  if 1 <=? limit then [x] else [].

(** The [catch] blocks: a [NotFoundError] goes through, or not. *)
Definition rethrow (keep_not_found : bool) (prefix : string) (e : error)
  : error :=
  match e with
  | NotFoundError _ => if keep_not_found then e
                       else Error (prefix +:+ JS.message e)
  | _ => Error (prefix +:+ JS.message e)
  end.

Definition searchSong (lrclibClient : LrclibClient) (query : PartialQuery)
    (options : SearchOptions) : M Cached :=
  let* validatedQuery := lift (Utils.validateQuery query) in
  let searchOptions :=
    JS.spread [("limit", VNum 10); ("include_metadata", VBool true);
               ("prefer_synced", VBool false)]
      (search_options_object options) in
  let cacheKey :=
    Cache.generateKey "search"
      (JS.spread (query_object validatedQuery) searchOptions) in
  let* o := get_options in
  let* cached := if enableCache o then cache_get cacheKey else ret None in
  match cached with
  | Some cached => ret cached
  | None =>
    try_catch
      (let* _ := when (enableRateLimit o) check_limit in
       let* rawMetadata := withTimeout
         (lrclib_findLyrics lrclibClient (adaptQueryForLrclib validatedQuery))
         (requestTimeout o) in
       match rawMetadata with
       | None => throw (NotFoundError "No lyrics found for the given query")
       | Some rawMetadata =>
         let metadata := adaptLrclibMetadata rawMetadata in
         let searchResult := Utils.createSearchResult metadata validatedQuery in
         let results :=
           slice_one searchResult
             (default 10 (limit options)) (* searchOptions.limit *) in
         let* _ := when (enableCache o) (cache_set cacheKey (CResults results)) in
         ret (CResults results)
       end)
      (λ error, throw (rethrow true "Search failed: " error))
  end.

Definition getLyricsById (trackId : Z) (options : LyricsOptions)
  : M Cached :=
  let lyricsOptions :=
    JS.spread [("synced", VBool false); ("includeMetadata", VBool true);
               ("format", VStr "json")]
      (lyrics_options_object options) in
  let cacheKey :=
    Cache.generateKey "lyrics_by_id"
      (JS.spread [("trackId", VNum trackId)] lyricsOptions) in
  let* o := get_options in
  let* cached := if enableCache o then cache_get cacheKey else ret None in
  match cached with
  | Some cached => ret cached
  | None =>
    try_catch
      (let* _ := when (enableRateLimit o) check_limit in
       (* For now, we'll need to search by query since lrclib-api doesn't
          have getById *)
       throw (NotFoundError
         "getLyricsById is not yet implemented - use searchSong and getLyricsByMetadata instead"))
      (λ error, throw (rethrow true "Failed to get lyrics by ID: " error))
  end.

Definition getLyricsByMetadata (lrclibClient : LrclibClient)
    (metadata : MetadataQuery) (options : LyricsOptions) : M Cached :=
  let query :=
    {| track_name := title metadata;
       artist_name := artist metadata;
       album_name := match album metadata with
                     | Some a => if Utils.nonempty a then Some a else None
                     | None => None
                     end |} in
  let lyricsOptions :=
    JS.spread [("synced", VBool false); ("includeMetadata", VBool true);
               ("format", VStr "json")]
      (lyrics_options_object options) in
  let cacheKey :=
    Cache.generateKey "lyrics_by_metadata"
      (JS.spread (query_object query) lyricsOptions) in
  let* o := get_options in
  let* cached := if enableCache o then cache_get cacheKey else ret None in
  match cached with
  | Some cached => ret cached
  | None =>
    try_catch
      (let* _ := when (enableRateLimit o) check_limit in
       (* First search for the track *)
       let* searchResults :=
         searchSong lrclibClient (query_partial query)
           {| limit := Some 1; include_metadata := None;
              prefer_synced := None |} in
       match searchResults with
       | CResults [] =>
         throw (NotFoundError "No lyrics found for the given metadata")
       | CResults (first :: _) =>
         let trackMetadata := sr_metadata first in
         let* rawLyrics :=
           if default false (synced options) (* lyricsOptions.synced *)
           then withTimeout
                  (lrclib_getSynced lrclibClient (adaptQueryForLrclib query))
                  (requestTimeout o)
           else withTimeout
                  (lrclib_getUnsynced lrclibClient (adaptQueryForLrclib query))
                  (requestTimeout o) in
         let lyrics := adaptLrclibLyrics rawLyrics in
         let* formattedLyrics :=
           lift (Utils.formatLyrics lyrics
                   (default json (lo_format options))
                   (if default true (includeMetadata options)
                    then Some trackMetadata else None)) in
         let* _ := when (enableCache o)
                     (cache_set cacheKey (CLyrics formattedLyrics)) in
         ret (CLyrics formattedLyrics)
       | _ =>
         (* a cached value that is not an array: reading [metadata] of
            [undefined] is a TypeError *)
         throw (Error "Cannot read properties of undefined")
       end)
      (λ error,
         throw (rethrow true "Failed to get lyrics by metadata: " error))
  end.

Definition getUnsynced (lrclibClient : LrclibClient) (query : PartialQuery)
    (options : FormatOptions) : M Cached :=
  let* validatedQuery := lift (Utils.validateQuery query) in
  let cacheKey :=
    Cache.generateKey "unsynced"
      (JS.spread (query_object validatedQuery)
         (format_options_object options)) in
  let* o := get_options in
  let* cached := if enableCache o then cache_get cacheKey else ret None in
  match cached with
  | Some cached => ret cached
  | None =>
    try_catch
      (let* _ := when (enableRateLimit o) check_limit in
       let* rawLyrics :=
         withTimeout
           (lrclib_getUnsynced lrclibClient (adaptQueryForLrclib validatedQuery))
           (requestTimeout o) in
       let lyrics := adaptLrclibLyrics rawLyrics in
       let* metadata :=
         if default false (fo_includeMetadata options)
         then
           let* rawMetadata :=
             withTimeout
               (lrclib_findLyrics lrclibClient
                  (adaptQueryForLrclib validatedQuery))
               (requestTimeout o) in
           ret (adaptLrclibMetadata <$> rawMetadata)
         else ret None in
       let* formattedLyrics :=
         lift (Utils.formatLyrics lyrics
                 (default json (fo_format options)) (* options.format || 'json' *)
                 metadata) in
       let* _ := when (enableCache o)
                   (cache_set cacheKey (CLyrics formattedLyrics)) in
       ret (CLyrics formattedLyrics))
      (λ error, throw (rethrow false "Failed to get unsynced lyrics: " error))
  end.

Definition getSynced (lrclibClient : LrclibClient) (query : PartialQuery)
    (options : FormatOptions) : M Cached :=
  let* validatedQuery := lift (Utils.validateQuery query) in
  let cacheKey :=
    Cache.generateKey "synced"
      (JS.spread (query_object validatedQuery)
         (format_options_object options)) in
  let* o := get_options in
  let* cached := if enableCache o then cache_get cacheKey else ret None in
  match cached with
  | Some cached => ret cached
  | None =>
    try_catch
      (let* _ := when (enableRateLimit o) check_limit in
       let* rawLyrics :=
         withTimeout
           (lrclib_getSynced lrclibClient (adaptQueryForLrclib validatedQuery))
           (requestTimeout o) in
       let lyrics := adaptLrclibLyrics rawLyrics in
       let* metadata :=
         if default false (fo_includeMetadata options)
         then
           let* rawMetadata :=
             withTimeout
               (lrclib_findLyrics lrclibClient
                  (adaptQueryForLrclib validatedQuery))
               (requestTimeout o) in
           ret (adaptLrclibMetadata <$> rawMetadata)
         else ret None in
       let* formattedLyrics :=
         lift (Utils.formatLyrics lyrics
                 (default json (fo_format options)) (* options.format || 'json' *)
                 metadata) in
       let* _ := when (enableCache o)
                   (cache_set cacheKey (CLyrics formattedLyrics)) in
       ret (CLyrics formattedLyrics))
      (λ error, throw (rethrow false "Failed to get synced lyrics: " error))
  end.

Definition findLyrics (lrclibClient : LrclibClient) (query : PartialQuery)
  : M Cached :=
  let* validatedQuery := lift (Utils.validateQuery query) in
  let cacheKey := Cache.generateKey "metadata" (query_object validatedQuery) in
  let* o := get_options in
  let* cached := if enableCache o then cache_get cacheKey else ret None in
  match cached with
  | Some cached => ret cached
  | None =>
    try_catch
      (let* _ := when (enableRateLimit o) check_limit in
       let* rawMetadata :=
         withTimeout
           (lrclib_findLyrics lrclibClient
              (adaptQueryForLrclib validatedQuery))
           (requestTimeout o) in
       match rawMetadata with
       | None => throw (NotFoundError "No lyrics found for the given query")
       | Some rawMetadata =>
         let metadata := adaptLrclibMetadata rawMetadata in
         let* _ := when (enableCache o)
                     (cache_set cacheKey (CMetadata metadata)) in
         ret (CMetadata metadata)
       end)
      (λ error, throw (rethrow true "Failed to find lyrics: " error))
  end.

Definition formatLyrics (lyrics : list LyricsLine)
    (format : LyricsFormat) (metadata : option TrackMetadata)
  : result FormattedLyrics :=
  Utils.formatLyrics lyrics format metadata.

Definition clearCache : M unit :=
  λ w, (Ok (), set_cache w (Cache.clear (cache (client w)))).

Definition getCacheStats : M (nat * nat) :=
  λ w, let '(cleaned, c) := Cache.clean (now w) (cache (client w)) in
       (Ok (Cache.size c, cleaned), set_cache w c).

Definition getRateLimitStatus : M RateLimiter.Status :=
  λ w, (Ok (RateLimiter.getStatus (rateLimiter (client w))), w).

Definition resetRateLimit : M unit :=
  λ w, (Ok (), set_rateLimiter w
                 (RateLimiter.reset (now w) (rateLimiter (client w)))).

(** What can happen to a client: a call of a public method, run to its
    end, or time passing between two calls. *)
Inductive event :=
| SearchSong (p : LrclibClient) (query : PartialQuery) (o : SearchOptions)
| GetLyricsById (trackId : Z) (o : LyricsOptions)
| GetLyricsByMetadata (p : LrclibClient) (m : MetadataQuery)
    (o : LyricsOptions)
| GetUnsynced (p : LrclibClient) (query : PartialQuery) (o : FormatOptions)
| GetSynced (p : LrclibClient) (query : PartialQuery) (o : FormatOptions)
| FindLyrics (p : LrclibClient) (query : PartialQuery)
| ClearCache
| GetCacheStats
| GetRateLimitStatus
| ResetRateLimit
| Elapse (dt : Z).

Definition after (w : World) (e : event) : World :=
  match e with
  | SearchSong p q o => (searchSong p q o w).2
  | GetLyricsById trackId o => (getLyricsById trackId o w).2
  | GetLyricsByMetadata p m o => (getLyricsByMetadata p m o w).2
  | GetUnsynced p q o => (getUnsynced p q o w).2
  | GetSynced p q o => (getSynced p q o w).2
  | FindLyrics p q => (findLyrics p q w).2
  | ClearCache => (clearCache w).2
  | GetCacheStats => (getCacheStats w).2
  | GetRateLimitStatus => (getRateLimitStatus w).2
  | ResetRateLimit => (resetRateLimit w).2
  | Elapse dt => advance dt w
  end.

(** The worlds a client can be in: a new client, then any events. *)
Inductive reachable : World → Prop :=
| reachable_new (o : ClientOptions) (now : Z) : reachable (new o now)
| reachable_after (w : World) (e : event) :
    reachable w → reachable (after w e).

End Client.

(** ** Vocabulary of the properties *)

(** The edit distance between the first [i] code units of [s1] and the first
    [j] code units of [s2], by the recurrence the table is filled with. *)
Fixpoint dist (s1 s2 : string) (j : nat) : nat → nat :=
  match j with
  | O => λ i, i
  | S j' =>
    fix row (i : nat) : nat :=
      match i with
      | O => S j'
      | S i' =>
        Nat.min (row i' + 1)
          (Nat.min (dist s1 s2 j' (S i') + 1)
             (dist s1 s2 j' i' + Utils.cost s1 s2 (S i') (S j')))%nat
      end
  end.

(** Which calls of [checkLimit], made one after the other at the times
    [ts], return ([true]) and which throw ([false]). *)
Fixpoint admitted (rl : RateLimiter.t) (ts : list Z) : list bool :=
  match ts with
  | [] => []
  | t :: ts' =>
    match RateLimiter.checkLimit t rl with
    | (Ok _, rl') => true :: admitted rl' ts'
    | (Throw _, rl') => false :: admitted rl' ts'
    end
  end.

(** Descending by score. *)
Definition score_ge (a b : SearchResult) : Prop := (score b <= score a)%Q.

(** The results with a given score, in their order. *)
Definition with_score (v : Q) (results : list SearchResult)
  : list SearchResult :=
  filter (λ r, Qeq_bool (score r) v = true) results.

(** The calls of [fn] before call [k] all throw. *)
Definition fails_before {T} (fn : nat → result T) (k : nat) : Prop :=
  ∀ i, (i < k)%nat → ∃ e, fn i = Throw e.

(** A number below 100 as two decimal digits. *)
Definition digit (d : Z) : ascii := ascii_of_nat (48 + Z.to_nat d).

Definition two_digits (x : Z) : string :=
  String (digit (x `div` 10)) (String (digit (x `mod` 10)) "").

(** One line of LRC output with a time stamp of ten characters: minutes,
    seconds of the minute and hundredths of the second. *)
Definition lrc_line_fixed (line : string * Z) : string :=
  let ms := line.2 in
  "[" +:+ two_digits (ms `div` 60000)
  +:+ ":" +:+ two_digits ((ms `div` 1000) `mod` 60)
  +:+ "." +:+ two_digits ((ms `div` 10) `mod` 100)
  +:+ "]" +:+ line.1.

(** A world of a client with the options [O] in which [J] holds, and a
    method that keeps a property of worlds. *)
Definition configured (O : Client.Options) (J : Client.World → Prop)
    (w : Client.World) : Prop :=
  Client.options (Client.client w) = O ∧ J w.

Definition keeps (I : Client.World → Prop) {A} (m : Client.M A) : Prop :=
  ∀ w, I w → I (m w).2.

(** The plain [Error] whose message starts with [prefix]. *)
Definition wrapped (prefix : string) (e : error) : Prop :=
  ∃ msg, e = Error (prefix +:+ msg).

Definition is_ValidationError (e : error) : Prop :=
  ∃ msg, e = ValidationError msg.

Definition is_NotFoundError (e : error) : Prop :=
  ∃ msg, e = NotFoundError msg.

(** The default lifetime of the cache of the client is not negative. *)
Definition ttl_ok (w : Client.World) : Prop :=
  0 ≤ Cache.defaultTTL (Client.cache (Client.client w)).

(** A computation of a client with the options [o] that, when it returns,
    has stored what it returns under [key], fresh at the time it ends. *)
Definition ends_stored (key : string) (o : Client.Options)
    (m : Client.M Client.Cached) : Prop :=
  ∀ w1 r w2,
    configured o ttl_ok w1 →
    m w1 = (Ok r, w2) →
    Cache.get (Client.now w2) key (Client.cache (Client.client w2))
    = (Some r, Client.cache (Client.client w2))
    ∧ Client.options (Client.client w2) = o.

(** The name spaces under which the methods of the client store values. *)
Definition storing_operations : list string :=
  ["search"; "lyrics_by_metadata"; "unsynced"; "synced"; "metadata"].

Definition stored_key (k : string) : Prop :=
  ∃ kind q, kind ∈ storing_operations ∧ k = Cache.generateKey kind q.

(** Every key of the cache of the client was generated by a storing
    method. *)
Definition keys_ok (w : Client.World) : Prop :=
  ∀ k, is_Some (Cache.cache (Client.cache (Client.client w)) !! k) →
       stored_key k.

(** A method that keeps [keys_ok]. *)
Definition preserves {A} (m : Client.M A) : Prop :=
  ∀ w, keys_ok w → keys_ok (m w).2.

(** A required field that is missing, not a string, or trims to empty. *)
Definition invalid_name (v : value) : Prop :=
  v = VUndefined ∨ JS.is_string v = false ∨ ∃ s, v = VStr s ∧ JS.trim s = "".

(** A string without white space at either end. *)
Definition trimmed (s : string) : Prop := JS.trim s = s.

(** A number zero-padded to two digits. *)
Definition zero_pad2 (x : Z) : string :=
  if decide (0 ≤ x < 10) then "0" +:+ pretty x else pretty x.

(** A synced line, as the pair of its text and its start time. *)
Definition synced (line : string * Z) : LyricsLine :=
  {| text := line.1; startTime := Some line.2 |}.

(** One line of LRC output: the time stamp, then the text; [md] is the
    remainder operation. *)
Definition lrc_line (md : Z → Z → Z) (line : string * Z) : string :=
  let ms := line.2 in
  "[" +:+ zero_pad2 (ms `div` 60000)
  +:+ ":" +:+ zero_pad2 (md ms 60000 `div` 1000)
  +:+ "." +:+ zero_pad2 (md ms 1000 `div` 10)
  +:+ "]" +:+ line.1.

(** A table of [rows] rows, each of [cols] cells. *)
Definition dims (M : Utils.matrix) (rows cols : nat) : Prop :=
  length M = rows ∧ ∀ j row, M !! j = Some row → length row = cols.

(** * Properties *)

(** Boolean tests on integers, as hypotheses of [lia]. *)
Ltac zbool :=
  repeat match goal with
  | H : (_ <=? _) = true |- _ => apply Z.leb_le in H
  | H : (_ <=? _) = false |- _ => apply Z.leb_gt in H
  | H : (_ <? _) = true |- _ => apply Z.ltb_lt in H
  | H : (_ <? _) = false |- _ => apply Z.ltb_ge in H
  | H : (_ =? _) = true |- _ => apply Z.eqb_eq in H
  | H : (_ =? _) = false |- _ => apply Z.eqb_neq in H
  end.

(** ** The rate limiter *)

Section rate_limiter.
Import RateLimiter.

Lemma checkLimit_config now rl :
  maxRequests (checkLimit now rl).2 = maxRequests rl
  ∧ windowMs (checkLimit now rl).2 = windowMs rl.
Proof. unfold checkLimit. by repeat case_match. Qed.

Lemma step_config rl c :
  maxRequests (step rl c) = maxRequests rl ∧ windowMs (step rl c) = windowMs rl.
Proof. destruct c; simpl; auto using checkLimit_config. Qed.

Lemma checkLimit_bound now rl :
  0 ≤ maxRequests rl →
  requests (state rl) ≤ maxRequests rl →
  requests (state (checkLimit now rl).2) ≤ maxRequests rl.
Proof.
  intros HN Hle. unfold checkLimit.
  repeat case_match; zbool; simpl in *; lia.
Qed.

Lemma step_bound rl c :
  0 ≤ maxRequests rl →
  requests (state rl) ≤ maxRequests rl →
  requests (state (step rl c)) ≤ maxRequests rl.
Proof.
  intros HN Hle. destruct c as [now| |now]; simpl.
  - by apply checkLimit_bound.
  - done.
  - done.
Qed.

Lemma run_bound cs : ∀ rl,
  0 ≤ maxRequests rl →
  requests (state rl) ≤ maxRequests rl →
  maxRequests (run rl cs) = maxRequests rl
  ∧ requests (state (run rl cs)) ≤ maxRequests rl.
Proof.
  induction cs as [|c cs IH]; intros rl HN Hle; [done|].
  unfold run in *. simpl.
  destruct (step_config rl c) as [Hmax _].
  destruct (IH (step rl c)) as [IH1 IH2].
  - by rewrite Hmax.
  - rewrite Hmax. by apply step_bound.
  - rewrite <- Hmax. by rewrite IH1 in *.
Qed.

(** C1, the part that fails: with [maxRequests = 0] the call made after
    the window has elapsed resets the window and then throws. *)
Lemma checkLimit_after_window_zero_limit :
  let rl := new (Some 0) (Some 1000) 0 in
  windowMs rl ≤ 1000 - windowStart (state rl)
  ∧ checkLimit 1000 rl
    = (Throw (RateLimitError "Rate limit exceeded. Try again in 1 seconds."),
       set_state rl {| requests := 0; windowStart := 1000;
                       isLimited := true |}).
Proof. split; [simpl; lia|reflexivity]. Qed.

(** C1 (amended): inside the window, with the count at or above
    [maxRequests], [checkLimit] throws a [RateLimitError] and leaves the
    count (and the window start) as they are; once [windowMs] has elapsed
    since [windowStart] and [maxRequests] is at least 1, [checkLimit]
    succeeds and leaves the state of a fresh window with one request:
    count 1, window start [now], not limited. *)
Theorem checkLimit_limited_and_window_reset (now : Z) (rl : t) :
  (now - windowStart (state rl) < windowMs rl →
   maxRequests rl ≤ requests (state rl) →
   checkLimit now rl
   = (Throw (RateLimitError
               (limit_message (windowStart (state rl) + windowMs rl - now))),
      set_state rl {| requests := requests (state rl);
                      windowStart := windowStart (state rl);
                      isLimited := true |}))
  ∧ (windowMs rl ≤ now - windowStart (state rl) →
     1 ≤ maxRequests rl →
     checkLimit now rl
     = (Ok (),
        set_state rl {| requests := 0 + 1; windowStart := now;
                        isLimited := false |})).
Proof.
  split.
  - intros Hwin Hmax. unfold checkLimit.
    destruct (windowMs rl <=? now - windowStart (state rl)) eqn:E1;
      zbool; [lia|].
    destruct (maxRequests rl <=? requests (state rl)) eqn:E2;
      zbool; [|lia].
    reflexivity.
  - intros Hwin Hmax. unfold checkLimit.
    destruct (windowMs rl <=? now - windowStart (state rl)) eqn:E1;
      zbool; [|lia].
    simpl. destruct (maxRequests rl <=? 0) eqn:E2; zbool; [lia|].
    reflexivity.
Qed.

Lemma checkLimit_limited_and_window_reset_witness :
  let rl := set_state (new (Some 2) (Some 1000) 0)
              {| requests := 2; windowStart := 0; isLimited := false |} in
  (checkLimit 999 rl).1
    = Throw (RateLimitError "Rate limit exceeded. Try again in 1 seconds.")
  ∧ requests (state (checkLimit 999 rl).2) = 2
  ∧ checkLimit 1000 rl
    = (Ok (), set_state rl {| requests := 1; windowStart := 1000;
                              isLimited := false |}).
Proof.
  intros rl.
  destruct (checkLimit_limited_and_window_reset 999 rl) as [H1 _].
  destruct (checkLimit_limited_and_window_reset 1000 rl) as [_ H2].
  rewrite H1 by (simpl; lia).
  split; [reflexivity|]. split; [reflexivity|].
  apply H2; simpl; lia.
Defined.

(** C9: with [maxRequests = N] and [0 ≤ N], the count starts at 0; each call
    ([checkLimit], whether it succeeds or throws, [getStatus], [reset])
    takes a count of at most [N] to a count of at most [N]; so the count is
    at most [N] after every sequence of calls. *)
Theorem requests_never_exceed_maxRequests (N : Z) (windowMs : option Z)
    (t0 : Z) :
  0 ≤ N →
  requests (state (new (Some N) windowMs t0)) = 0
  ∧ (∀ rl c, maxRequests rl = N → requests (state rl) ≤ N →
       requests (state (step rl c)) ≤ N)
  ∧ (∀ cs, requests (state (run (new (Some N) windowMs t0) cs)) ≤ N).
Proof.
  intros HN. split; [done|]. split.
  - intros rl c <- Hle. apply step_bound; lia.
  - intros cs.
    destruct (run_bound cs (new (Some N) windowMs t0)) as [_ H];
      simpl in *; lia.
Qed.

Lemma requests_never_exceed_maxRequests_witness :
  requests (state (run (new (Some 2) (Some 1000) 0)
    [CheckLimit 1; CheckLimit 2; CheckLimit 3; GetStatus; CheckLimit 1500;
     Reset 1600; CheckLimit 1601])) ≤ 2.
Proof.
  destruct (requests_never_exceed_maxRequests 2 (Some 1000) 0) as (_ & _ & H);
    [lia|].
  apply H.
Defined.

End rate_limiter.

(** ** Strings *)

Section strings.

Lemma string_app_nil_l (s : string) : "" +:+ s = s.
Proof. reflexivity. Qed.

Lemma string_app_cons (a : ascii) (s1 s2 : string) :
  String a s1 +:+ s2 = String a (s1 +:+ s2).
Proof. reflexivity. Qed.

Lemma chars_app (s1 s2 : string) :
  list_ascii_of_string (s1 +:+ s2)
  = list_ascii_of_string s1 ++ list_ascii_of_string s2.
Proof.
  induction s1 as [|a s1 IH]; [done|].
  rewrite string_app_cons. simpl. by rewrite IH.
Qed.

Lemma chars_inj (s1 s2 : string) :
  list_ascii_of_string s1 = list_ascii_of_string s2 → s1 = s2.
Proof.
  intros H. rewrite <- (string_of_list_ascii_of_string s1),
    <- (string_of_list_ascii_of_string s2). by rewrite H.
Qed.

Lemma string_app_inv_tail (s1 s2 s : string) :
  s1 +:+ s = s2 +:+ s → s1 = s2.
Proof.
  intros H. apply chars_inj.
  apply (f_equal list_ascii_of_string) in H. rewrite !chars_app in H.
  by apply app_inv_tail in H.
Qed.

Lemma string_app_nil_r (s : string) : s +:+ "" = s.
Proof.
  induction s as [|a s IH]; [done|]. by rewrite string_app_cons, IH.
Qed.

Lemma string_app_assoc (s1 s2 s3 : string) :
  (s1 +:+ s2) +:+ s3 = s1 +:+ s2 +:+ s3.
Proof.
  induction s1 as [|a s1 IH]; [done|]. by rewrite !string_app_cons, IH.
Qed.

Lemma chars_rev_app (s1 : string) : ∀ s2,
  list_ascii_of_string (String.rev_app s1 s2)
  = reverse (list_ascii_of_string s1) ++ list_ascii_of_string s2.
Proof.
  induction s1 as [|a s1 IH]; intros s2; [done|].
  simpl. by rewrite IH, reverse_cons, <- app_assoc.
Qed.

Lemma chars_rev (s : string) :
  list_ascii_of_string (String.rev s) = reverse (list_ascii_of_string s).
Proof. unfold String.rev. by rewrite chars_rev_app, app_nil_r. Qed.

Lemma string_rev_involutive (s : string) : String.rev (String.rev s) = s.
Proof. apply chars_inj. by rewrite !chars_rev, reverse_involutive. Qed.

Lemma string_rev_app (s1 s2 : string) :
  String.rev (s1 +:+ s2) = String.rev s2 +:+ String.rev s1.
Proof.
  apply chars_inj. by rewrite chars_rev, !chars_app, !chars_rev, reverse_app.
Qed.

Lemma trimStart_head (s : string) c u :
  JS.trimStart s = String c u → JS.is_white_space c = false.
Proof.
  induction s as [|a s IH]; simpl; [done|].
  destruct (JS.is_white_space a) eqn:E; [done|]. by intros [= <- _].
Qed.

Lemma trimStart_idem (s : string) :
  JS.trimStart (JS.trimStart s) = JS.trimStart s.
Proof.
  induction s as [|a s IH]; simpl; [done|].
  destruct (JS.is_white_space a) eqn:E; [done|]. simpl. by rewrite E.
Qed.

Lemma trimStart_snoc (s : string) c :
  JS.is_white_space c = false →
  ∃ v, JS.trimStart (s +:+ String c "") = v +:+ String c "".
Proof.
  intros Hc. induction s as [|a s [v IH]].
  - exists "". simpl. by rewrite Hc.
  - rewrite string_app_cons. simpl.
    destruct (JS.is_white_space a); [by exists v|].
    by exists (String a s).
Qed.

(** A trimmed string has no white space left at either end. *)
Lemma trim_idem (s : string) : JS.trim (JS.trim s) = JS.trim s.
Proof.
  unfold JS.trim.
  assert (Hstart : JS.trimStart (JS.trimEnd (JS.trimStart s))
                   = JS.trimEnd (JS.trimStart s)).
  { destruct (JS.trimStart s) as [|c u] eqn:E; [done|].
    apply trimStart_head in E. unfold JS.trimEnd.
    change (String c u) with (String c "" +:+ u).
    rewrite string_rev_app.
    change (String.rev (String c "")) with (String c "").
    destruct (trimStart_snoc (String.rev u) c E) as [v ->].
    rewrite string_rev_app.
    change (String.rev (String c "")) with (String c "").
    rewrite string_app_cons. simpl. by rewrite E. }
  rewrite Hstart. unfold JS.trimEnd.
  by rewrite string_rev_involutive, trimStart_idem.
Qed.

End strings.

(** ** Numbers as strings *)

Section number_strings.

Lemma string_length_app (s1 s2 : string) :
  String.length (s1 +:+ s2) = (String.length s1 + String.length s2)%nat.
Proof.
  induction s1 as [|a s1 IH]; [done|].
  rewrite string_app_cons. simpl. by rewrite IH.
Qed.

Lemma pretty_N_go_length (x : N) : ∀ s,
  (String.length s ≤ String.length (pretty_N_go x s))%nat.
Proof.
  induction (N.lt_wf_0 x) as [x _ IH]; intros s.
  destruct (decide (x = 0)%N) as [->|Hx]; [by rewrite pretty_N_go_0|].
  rewrite pretty_N_go_step by lia.
  etrans; [|apply IH; apply N.div_lt; lia]. simpl. lia.
Qed.

Lemma pretty_N_length_pos (x : N) :
  (1 ≤ String.length (pretty x))%nat.
Proof.
  unfold pretty, pretty_N. case_decide; [simpl; lia|].
  rewrite pretty_N_go_step by lia.
  etrans; [|apply pretty_N_go_length]. simpl. lia.
Qed.

Lemma pretty_N_length_ge_10 (x : N) :
  (10 ≤ x)%N → (2 ≤ String.length (pretty x))%nat.
Proof.
  intros Hx. unfold pretty, pretty_N. case_decide; [lia|].
  rewrite pretty_N_go_step by lia.
  rewrite pretty_N_go_step by (apply N.div_str_pos; lia).
  etrans; [|apply pretty_N_go_length]. simpl. lia.
Qed.

Lemma pretty_Z_length (x : Z) :
  ¬ (0 ≤ x < 10) → (2 ≤ String.length (pretty x))%nat.
Proof.
  intros Hx. destruct x as [|p|p]; [lia| |].
  - apply (pretty_N_length_ge_10 (Npos p)). lia.
  - change (pretty (Z.neg p)) with ("-" +:+ pretty (Npos p)).
    rewrite string_length_app. pose proof (pretty_N_length_pos (Npos p)).
    simpl. lia.
Qed.

Lemma padStart_long (s pad : string) (k : nat) :
  (k ≤ String.length s)%nat → JS.padStart s k pad = s.
Proof.
  intros Hk. unfold JS.padStart.
  by destruct (Nat.leb_spec k (String.length s)); [|lia].
Qed.

(** [x.toString ().padStart (2, '0')] pads to two digits. *)
Lemma padStart_zero_pad2 (x : Z) :
  JS.padStart (pretty x) 2 "0" = zero_pad2 x.
Proof.
  unfold zero_pad2. case_decide as Hx.
  - assert (x = 0 ∨ x = 1 ∨ x = 2 ∨ x = 3 ∨ x = 4 ∨ x = 5 ∨ x = 6
            ∨ x = 7 ∨ x = 8 ∨ x = 9) as Hc by lia.
    repeat (destruct Hc as [->|Hc]; [reflexivity|]). by subst.
  - by apply padStart_long, pretty_Z_length.
Qed.

End number_strings.

(** ** The similarity score *)

Section table.
Import Utils.
Local Open Scope nat_scope.

Lemma foldl_seq_invariant {A} (P : nat → A → Prop) (f : A → nat → A)
    (len : nat) : ∀ (start : nat) (a : A),
  P start a →
  (∀ k x, start ≤ k < start + len → P k x → P (S k) (f x k)) →
  P (start + len) (foldl f a (seq start len)).
Proof.
  induction len as [|len IH]; intros start a Ha Hstep; simpl.
  - by rewrite Nat.add_0_r.
  - rewrite Nat.add_succ_r. apply (IH (S start)).
    + apply Hstep; [lia|done].
    + intros k x Hk. apply Hstep. lia.
Qed.

Lemma dims_new rows cols : dims (matrix_new rows cols) rows cols.
Proof.
  split; [apply length_replicate|].
  intros j row [-> _]%lookup_replicate. apply length_replicate.
Qed.

Lemma dims_mset M rows cols j i v :
  dims M rows cols → dims (mset M j i v) rows cols.
Proof.
  intros [Hlen Hrow]. unfold mset. split; [by rewrite length_alter|].
  intros j' row. destruct (decide (j = j')) as [<-|Hne].
  - rewrite list_lookup_alter_eq.
    destruct (M !! j) as [r|] eqn:E; simpl; [|done].
    intros [= <-]. rewrite length_insert. eauto.
  - rewrite list_lookup_alter_ne by done. eauto.
Qed.

Lemma mget_mset_eq M rows cols j i v :
  dims M rows cols → j < rows → i < cols → mget (mset M j i v) j i = v.
Proof.
  intros [Hlen Hrow] Hj Hi. unfold mget, mset.
  rewrite list_lookup_alter_eq.
  destruct (lookup_lt_is_Some_2 M j) as [r Hr]; [lia|].
  rewrite Hr. simpl.
  by rewrite list_lookup_insert_eq by (rewrite (Hrow j r Hr); lia).
Qed.

Lemma mget_mset_ne M j i v j' i' :
  j ≠ j' ∨ i ≠ i' → mget (mset M j i v) j' i' = mget M j' i'.
Proof.
  intros Hne. unfold mget, mset.
  destruct (decide (j = j')) as [<-|Hj].
  - rewrite list_lookup_alter_eq. destruct (M !! j) as [r|]; simpl; [|done].
    rewrite list_lookup_insert_ne; [done|]. by destruct Hne.
  - by rewrite list_lookup_alter_ne.
Qed.

Lemma dist_0_r s1 s2 j : dist s1 s2 j 0 = j.
Proof. by destruct j. Qed.

Lemma dist_S_S s1 s2 j i :
  dist s1 s2 (S j) (S i)
  = Nat.min (dist s1 s2 (S j) i + 1)
      (Nat.min (dist s1 s2 j (S i) + 1)
         (dist s1 s2 j i + cost s1 s2 (S i) (S j))).
Proof. reflexivity. Qed.

Lemma cost_sym s1 s2 i j : cost s1 s2 i j = cost s2 s1 j i.
Proof. unfold cost. by repeat case_decide. Qed.

Lemma cost_le_1 s1 s2 i j : cost s1 s2 i j ≤ 1.
Proof. unfold cost. case_decide; lia. Qed.

Lemma dist_sym s1 s2 j : ∀ i, dist s1 s2 j i = dist s2 s1 i j.
Proof.
  induction j as [|j IHj]; intros i.
  - by rewrite dist_0_r.
  - induction i as [|i IHi]; [done|].
    rewrite !dist_S_S, IHi, !IHj, (cost_sym s1 s2). lia.
Qed.

Lemma dist_le_max s1 s2 j : ∀ i, dist s1 s2 j i ≤ Nat.max i j.
Proof.
  induction j as [|j IHj]; intros i; [simpl; lia|].
  destruct i as [|i]; [simpl; lia|].
  rewrite dist_S_S. pose proof (IHj i). pose proof (cost_le_1 s1 s2 (S i) (S j)).
  lia.
Qed.

Section fill.
Variables s1 s2 : string.
Let n := String.length s1.
Let m := String.length s2.

Lemma fill_first_row_spec M :
  dims M (m + 1) (n + 1) →
  dims (fill_first_row s1 M) (m + 1) (n + 1)
  ∧ ∀ i, i ≤ n → mget (fill_first_row s1 M) 0 i = i.
Proof.
  intros HM. unfold fill_first_row.
  pose proof (foldl_seq_invariant
    (λ k M, dims M (m + 1) (n + 1) ∧ ∀ i, i < k → mget M 0 i = i)
    (λ M i, mset M 0 i i) (S n) 0 M) as H.
  simpl in H. destruct H as [H1 H2].
  - split; [done|]. intros; lia.
  - intros k x Hk [Hd Hx]. split; [by apply dims_mset|].
    intros i Hi. destruct (decide (i = k)) as [->|Hne].
    + apply (mget_mset_eq _ (m + 1) (n + 1)); [done|lia|lia].
    + rewrite mget_mset_ne by auto. apply Hx. lia.
  - split; [done|]. intros i Hi. apply H2. lia.
Qed.

Lemma fill_first_column_spec M :
  dims M (m + 1) (n + 1) →
  (∀ i, i ≤ n → mget M 0 i = i) →
  dims (fill_first_column s2 M) (m + 1) (n + 1)
  ∧ (∀ i, i ≤ n → mget (fill_first_column s2 M) 0 i = dist s1 s2 0 i)
  ∧ (∀ j, j ≤ m → mget (fill_first_column s2 M) j 0 = dist s1 s2 j 0).
Proof.
  intros HM Hrow. unfold fill_first_column.
  pose proof (foldl_seq_invariant
    (λ k M, dims M (m + 1) (n + 1)
            ∧ (∀ i, 0 < i ≤ n → mget M 0 i = i)
            ∧ (∀ j, j < k → mget M j 0 = j))
    (λ M j, mset M j 0 j) (S m) 0 M) as H.
  simpl in H. destruct H as (H1 & H2 & H3).
  - split; [done|]. split; [intros; apply Hrow|intros]; lia.
  - intros k x Hk (Hd & Hr & Hc). split; [by apply dims_mset|]. split.
    + intros i Hi. rewrite mget_mset_ne by (right; lia). by apply Hr.
    + intros j Hj. destruct (decide (j = k)) as [->|Hne].
      * apply (mget_mset_eq _ (m + 1) (n + 1)); [done|lia|lia].
      * rewrite mget_mset_ne by auto. apply Hc. lia.
  - split; [done|]. split.
    + intros i Hi. simpl. destruct i as [|i]; [apply H3|apply H2]; lia.
    + intros j Hj. rewrite dist_0_r. apply H3. lia.
Qed.

(** Rows below [j] hold the distances, and so does the first column. *)
Let rows_done (j : nat) (M : matrix) : Prop :=
  dims M (m + 1) (n + 1)
  ∧ (∀ j' i, j' < j → i ≤ n → mget M j' i = dist s1 s2 j' i)
  ∧ (∀ j', j' ≤ m → mget M j' 0 = dist s1 s2 j' 0).

Lemma fill_row_spec j M :
  1 ≤ j ≤ m → rows_done j M →
  rows_done (S j) (foldl (fill_cell s1 s2 j) M (seq 1 n)).
Proof.
  intros Hj (Hd & Hrows & Hcol).
  pose proof (foldl_seq_invariant
    (λ i M, rows_done j M ∧ ∀ i', i' < i → mget M j i' = dist s1 s2 j i')
    (fill_cell s1 s2 j) n 1 M) as H.
  destruct H as [(H1 & H2 & H3) H4].
  - split; [done|]. intros i' Hi'.
    replace i' with 0 by lia. apply Hcol. lia.
  - intros i x Hi [(Hxd & Hxrows & Hxcol) Hxrow].
    assert (Hv : Nat.min (mget x j (i - 1) + 1)
                   (Nat.min (mget x (j - 1) i + 1)
                      (mget x (j - 1) (i - 1) + cost s1 s2 i j))
                 = dist s1 s2 j i).
    { destruct j as [|j']; [lia|]. destruct i as [|i']; [lia|].
      rewrite dist_S_S. simpl.
      rewrite !Nat.sub_0_r, Hxrow, !Hxrows by lia. done. }
    unfold fill_cell. rewrite Hv. split; [split; [|split]|].
    + by apply dims_mset.
    + intros j' i' Hj' Hi'. rewrite mget_mset_ne by (left; lia).
      by apply Hxrows.
    + intros j' Hj'. rewrite mget_mset_ne by (right; lia).
      by apply Hxcol.
    + intros i' Hi'. destruct (decide (i' = i)) as [->|Hne].
      * apply (mget_mset_eq _ (m + 1) (n + 1)); [done|lia|lia].
      * rewrite mget_mset_ne by auto. apply Hxrow. lia.
  - split; [done|]. split; [|done].
    intros j' i Hj' Hi. destruct (decide (j' = j)) as [->|Hne].
    + apply H4. lia.
    + apply H2; [lia|done].
Qed.

Lemma levenshtein_table_spec j i :
  j ≤ m → i ≤ n → mget (levenshtein_table s1 s2) j i = dist s1 s2 j i.
Proof.
  intros Hj Hi. unfold levenshtein_table, fill_table.
  destruct (fill_first_row_spec (matrix_new (m + 1) (n + 1)))
    as [Hd1 Hr1]; [apply dims_new|].
  destruct (fill_first_column_spec _ Hd1 Hr1) as (Hd2 & Hr2 & Hc2).
  pose proof (foldl_seq_invariant rows_done
    (λ M j, foldl (fill_cell s1 s2 j) M (seq 1 n)) m 1
    (fill_first_column s2 (fill_first_row s1
       (matrix_new (m + 1) (n + 1))))) as H.
  destruct H as (_ & H & _).
  - split; [done|]. split; [|done].
    intros j' i' Hj' Hi'. replace j' with 0 by lia. by apply Hr2.
  - intros k x Hk Hx. apply fill_row_spec; [lia|done].
  - apply H; lia.
Qed.

End fill.

End table.

(** C7: [calculateSimilarity] is symmetric, its result lies between 0 and 1,
    and two strings that are equal after lower-casing and trimming score
    exactly 1, two empty strings among them. *)
Theorem calculateSimilarity_symmetric_bounded (a b : string) :
  Utils.calculateSimilarity a b = Utils.calculateSimilarity b a
  ∧ (0 <= Utils.calculateSimilarity a b)%Q
  ∧ (Utils.calculateSimilarity a b <= 1)%Q
  ∧ (JS.trim (JS.toLowerCase a) = JS.trim (JS.toLowerCase b) →
     Utils.calculateSimilarity a b = 1%Q)
  ∧ Utils.calculateSimilarity "" "" = 1%Q.
Proof.
  unfold Utils.calculateSimilarity.
  set (s1 := JS.trim (JS.toLowerCase a)).
  set (s2 := JS.trim (JS.toLowerCase b)).
  repeat split.
  - rewrite (String.eqb_sym s2 s1).
    destruct (String.eqb s1 s2); [done|].
    rewrite (Nat.max_comm (String.length s2)).
    destruct (_ =? 0)%nat; [done|].
    by rewrite !levenshtein_table_spec, (dist_sym s1 s2) by done.
  - destruct (String.eqb s1 s2); [done|].
    destruct (_ =? 0)%nat; [done|].
    rewrite levenshtein_table_spec by done.
    pose proof (dist_le_max s1 s2 (String.length s2) (String.length s1)).
    unfold Qle. simpl. lia.
  - destruct (String.eqb s1 s2); [done|].
    destruct (_ =? 0)%nat eqn:E; [done|].
    apply Nat.eqb_neq in E. unfold Qle. simpl. lia.
  - intros ->. by rewrite String.eqb_refl.
Qed.

Lemma calculateSimilarity_symmetric_bounded_witness :
  Utils.calculateSimilarity "  Hello" "hello " = 1%Q
  ∧ Utils.calculateSimilarity "kitten" "Sitting"
    = Utils.calculateSimilarity "Sitting" "kitten".
Proof.
  destruct (calculateSimilarity_symmetric_bounded "  Hello" "hello ")
    as (_ & _ & _ & H & _).
  split; [apply H; reflexivity|].
  apply calculateSimilarity_symmetric_bounded.
Defined.

(** ** The cache *)

Section cache.
Context {T : Type}.
Implicit Types (c : Cache.t T) (k : string) (v : T).

Lemma set_lookup now k v ttl c :
  Cache.cache (Cache.set now k v ttl c) !! k
  = Some (Cache.mkEntry v now (default (Cache.defaultTTL c) ttl)).
Proof. unfold Cache.set. simpl. by rewrite lookup_insert_eq. Qed.

Lemma get_fresh now k c e :
  Cache.cache c !! k = Some e →
  now - Cache.timestamp e ≤ Cache.ttl e →
  Cache.get now k c = (Some (Cache.data e), c).
Proof.
  intros Hk Hle. unfold Cache.get, Cache.expired. rewrite Hk.
  destruct (Cache.ttl e <? now - Cache.timestamp e) eqn:E; zbool; [lia|done].
Qed.

Lemma get_expired now k c e :
  Cache.cache c !! k = Some e →
  Cache.ttl e < now - Cache.timestamp e →
  Cache.get now k c = (None, Cache.set_cache c (delete k (Cache.cache c)))
  ∧ Cache.size c = S (Cache.size (Cache.get now k c).2).
Proof.
  intros Hk Hlt. unfold Cache.get, Cache.expired. rewrite Hk.
  destruct (Cache.ttl e <? now - Cache.timestamp e) eqn:E; zbool; [|lia].
  split; [done|]. unfold Cache.size. simpl.
  rewrite map_size_delete, Hk. symmetry. apply Nat.succ_pred.
  apply (map_size_ne_0_lookup_2 _ k). eauto.
Qed.

End cache.

(** C2, the part that fails: an entry set with a negative lifetime is
    already expired when it is read back at the same instant. *)
Lemma set_get_negative_ttl :
  Cache.get 0 "k" (Cache.set 0 "k" 7%nat (Some (-1)) (Cache.new None))
  = (None, Cache.new None).
Proof. reflexivity. Qed.

(** C2 (amended): for every key, value and lifetime that is not negative
    (the one given, or the default one), [set (k, v, ttl)] followed by
    [get (k)] at the same instant returns [v]; and for every stored entry,
    once the time elapsed since it was set strictly exceeds its lifetime,
    [get (k)] returns [null] and removes the entry, so that [size ()] is one
    less than before. *)
Theorem cache_round_trip_and_lazy_expiry {T : Type} (c : Cache.t T)
    (k : string) (v : T) (ttl : option Z) (t0 now : Z) :
  (0 ≤ default (Cache.defaultTTL c) ttl →
   Cache.get t0 k (Cache.set t0 k v ttl c)
   = (Some v, Cache.set t0 k v ttl c))
  ∧ (default (Cache.defaultTTL c) ttl < now - t0 →
     let c1 := Cache.set t0 k v ttl c in
     let c2 := (Cache.get now k c1).2 in
     (Cache.get now k c1).1 = None
     ∧ Cache.cache c2 !! k = None
     ∧ Cache.size c1 = S (Cache.size c2))
  ∧ (∀ e, Cache.cache c !! k = Some e →
       Cache.ttl e < now - Cache.timestamp e →
       let c' := (Cache.get now k c).2 in
       (Cache.get now k c).1 = None
       ∧ Cache.cache c' !! k = None
       ∧ Cache.size c = S (Cache.size c')).
Proof.
  assert (Hgen : ∀ (c : Cache.t T) e, Cache.cache c !! k = Some e →
       Cache.ttl e < now - Cache.timestamp e →
       (Cache.get now k c).1 = None
       ∧ Cache.cache (Cache.get now k c).2 !! k = None
       ∧ Cache.size c = S (Cache.size (Cache.get now k c).2)).
  { intros c0 e He Hlt. destruct (get_expired now k c0 e He Hlt) as [Hg Hs].
    split; [by rewrite Hg|]. split; [|done].
    rewrite Hg. simpl. apply lookup_delete_eq. }
  split; [|split].
  - intros Httl.
    apply (get_fresh t0 k _
             (Cache.mkEntry v t0 (default (Cache.defaultTTL c) ttl)));
      [apply set_lookup|simpl; lia].
  - intros Hlt c1 c2. eapply Hgen; [apply set_lookup|simpl; lia].
  - intros e He Hlt c'. by eapply Hgen.
Qed.

Lemma cache_round_trip_and_lazy_expiry_witness :
  let c := Cache.set 0 "a" 1%nat None (Cache.new None) in
  Cache.get 5 "k" (Cache.set 5 "k" 7%nat (Some 10) c)
  = (Some 7%nat, Cache.set 5 "k" 7%nat (Some 10) c)
  ∧ (Cache.get 16 "k" (Cache.set 5 "k" 7%nat (Some 10) c)).1 = None
  ∧ Cache.size (Cache.set 5 "k" 7%nat (Some 10) c)
    = S (Cache.size (Cache.get 16 "k" (Cache.set 5 "k" 7%nat (Some 10) c)).2).
Proof.
  intros c.
  destruct (cache_round_trip_and_lazy_expiry c "k" 7%nat (Some 10) 5 16)
    as (H1 & H2 & _).
  split; [apply H1; simpl; lia|].
  destruct H2 as (H2 & _ & H3); [simpl; lia|].
  split; [exact H2|exact H3].
Defined.

(** ** Cache keys *)

Section generate_key.

Lemma get_elem_of (q : JS.object) k v :
  NoDup (JS.keys q) → (k, v) ∈ q → JS.get q k = v.
Proof.
  unfold JS.keys. induction q as [|[k' v'] q IH]; intros Hnd Hin.
  - by apply elem_of_nil in Hin.
  - simpl in *. apply NoDup_cons in Hnd as [Hk' Hnd].
    apply elem_of_cons in Hin as [Heq|Hin].
    + injection Heq as -> ->. by rewrite String.eqb_refl.
    + destruct (String.eqb_spec k' k) as [->|Hne]; [|by apply IH].
      destruct Hk'. apply list_elem_of_fmap. by exists (k, v).
Qed.

Lemma get_not_key (q : JS.object) k :
  k ∉ JS.keys q → JS.get q k = VUndefined.
Proof.
  unfold JS.keys. induction q as [|[k' v'] q IH]; intros Hin; [done|].
  simpl in *. apply not_elem_of_cons in Hin as [Hne Hin].
  destruct (String.eqb_spec k' k) as [->|_]; [done|by apply IH].
Qed.

Lemma get_Permutation (q1 q2 : JS.object) k :
  NoDup (JS.keys q1) → q1 ≡ₚ q2 → JS.get q1 k = JS.get q2 k.
Proof.
  intros Hnd Hp.
  assert (Hkeys : JS.keys q1 ≡ₚ JS.keys q2) by (unfold JS.keys; by rewrite Hp).
  assert (Hnd2 : NoDup (JS.keys q2)) by (by rewrite <- Hkeys).
  destruct (decide (k ∈ JS.keys q1)) as [Hin|Hin].
  - unfold JS.keys in Hin. apply list_elem_of_fmap in Hin as ([k' v] & -> & Hin).
    simpl. rewrite (get_elem_of q1 k' v), (get_elem_of q2 k' v); try done.
    by rewrite <- Hp.
  - rewrite !get_not_key; try done. by rewrite <- Hkeys.
Qed.

Lemma sort_Permutation (l1 l2 : list string) :
  l1 ≡ₚ l2 → JS.sort l1 = JS.sort l2.
Proof.
  intros Hp. unfold JS.sort.
  apply (Sorted_unique String.le); try apply Sorted_merge_sort; try apply _.
  by rewrite !merge_sort_Permutation.
Qed.

End generate_key.

(** C6: [generateKey] does not depend on the order in which the properties
    of the parameter object were inserted (two objects with the same
    key-value pairs give the same key), and for every parameter object two
    different prefixes give two different keys. *)
Theorem generateKey_order_invariant_and_prefix_injective
    (prefix prefix' : string) (q q' : JS.object) :
  (NoDup (JS.keys q) → q ≡ₚ q' →
   Cache.generateKey prefix q = Cache.generateKey prefix q')
  ∧ (prefix ≠ prefix' →
     Cache.generateKey prefix q ≠ Cache.generateKey prefix' q).
Proof.
  split.
  - intros Hnd Hp. unfold Cache.generateKey.
    rewrite (sort_Permutation (JS.keys q) (JS.keys q'))
      by (unfold JS.keys; by rewrite Hp).
    do 3 f_equal. apply list_fmap_ext. intros _ key _.
    by rewrite (get_Permutation q q').
  - intros Hne Heq. apply Hne. unfold Cache.generateKey in Heq.
    by apply string_app_inv_tail in Heq.
Qed.

Lemma generateKey_order_invariant_and_prefix_injective_witness :
  Cache.generateKey "search"
    [("track_name", VStr "a"); ("artist_name", VStr "b"); ("limit", VNum 10)]
  = Cache.generateKey "search"
    [("limit", VNum 10); ("track_name", VStr "a"); ("artist_name", VStr "b")]
  ∧ Cache.generateKey "search" [("track_name", VStr "a")]
    ≠ Cache.generateKey "synced" [("track_name", VStr "a")].
Proof.
  split.
  - apply generateKey_order_invariant_and_prefix_injective; [exact "x"| |].
    + apply (bool_decide_unpack
               (NoDup ["track_name"; "artist_name"; "limit"])).
      vm_compute. exact I.
    + symmetry. apply Permutation_cons_append
        with (l := [("track_name", VStr "a"); ("artist_name", VStr "b")]).
  - apply (generateKey_order_invariant_and_prefix_injective
             "search" "synced" _ []).
    discriminate.
Defined.

(** ** Formatting *)

Section formatting.
Import Utils.

Lemma isSyncedLyrics_spec (lyrics : list LyricsLine) :
  isSyncedLyrics lyrics = false
  ↔ lyrics = [] ∨ ∃ line rest, lyrics = line :: rest ∧ startTime line = None.
Proof.
  unfold isSyncedLyrics. destruct lyrics as [|line rest]; simpl.
  - split; [by left|done].
  - destruct (startTime line) as [t|] eqn:E; simpl.
    + split; [done|]. intros [?|(l & r & [= <- <-] & Hl)]; congruence.
    + split; [|done]. intros _. right. by exists line, rest.
Qed.

Lemma formatToLRC_synced (lines : list (string * Z)) :
  formatToLRC (synced <$> lines) = JS.join JS.LF (lrc_line Z.rem <$> lines).
Proof.
  unfold formatToLRC. f_equal. rewrite <- list_fmap_compose.
  apply list_fmap_ext. intros _ [t ms] _. unfold lrc_line. simpl.
  by rewrite !padStart_zero_pad2, !string_app_assoc.
Qed.

Lemma lrc_line_nonneg (line : string * Z) :
  0 ≤ line.2 → lrc_line Z.rem line = lrc_line Z.modulo line.
Proof.
  intros Hms. unfold lrc_line. by rewrite !Z.rem_mod_nonneg by lia.
Qed.

End formatting.

(** C4, the part that fails: the check looks at the first line only, so a
    sequence whose first line has a start time and whose second line has
    none is formatted, the missing start time giving [NaN]. *)
Lemma formatLyrics_lrc_mixed_accepted :
  Utils.formatLyrics [mkLine "a" (Some 0); mkLine "b" None] lrc None
  = Ok {| content := "[00:00.00]a" +:+ JS.LF +:+ "[NaN:NaN.NaN]b";
          format := lrc; metadata := None |}.
Proof. reflexivity. Qed.

(** C4 (amended): formatting as ['lrc'] throws the [ValidationError] exactly
    when the sequence is empty or its first line has no start time; in
    particular it throws for every sequence in which no line has a start
    time (the unsynced variant). *)
Theorem formatLyrics_lrc_requires_synced (lyrics : list LyricsLine)
    (md : option TrackMetadata) :
  (Utils.formatLyrics lyrics lrc md
   = Throw (ValidationError "LRC format requires synced lyrics")
   ↔ lyrics = [] ∨ ∃ line rest, lyrics = line :: rest ∧ startTime line = None)
  ∧ (Forall (λ line, startTime line = None) lyrics →
     Utils.formatLyrics lyrics lrc md
     = Throw (ValidationError "LRC format requires synced lyrics")).
Proof.
  assert (Hiff : Utils.formatLyrics lyrics lrc md
    = Throw (ValidationError "LRC format requires synced lyrics")
    ↔ lyrics = [] ∨ ∃ line rest, lyrics = line :: rest ∧ startTime line = None).
  { rewrite <- isSyncedLyrics_spec. unfold Utils.formatLyrics.
    destruct (Utils.isSyncedLyrics lyrics); simpl; split; congruence. }
  split; [done|].
  intros Hall. apply Hiff. destruct lyrics as [|line rest]; [by left|].
  right. exists line, rest. split; [done|]. by apply Forall_cons in Hall as [? _].
Qed.

Lemma formatLyrics_lrc_requires_synced_witness :
  Utils.formatLyrics [mkLine "Line 1" None; mkLine "Line 2" None] lrc None
  = Throw (ValidationError "LRC format requires synced lyrics").
Proof.
  destruct (formatLyrics_lrc_requires_synced
              [mkLine "Line 1" None; mkLine "Line 2" None] None) as [_ H].
  apply H. repeat constructor.
Defined.

(** C5: for every non-empty sequence of synced lines, formatting as ['lrc']
    gives the lines joined by line feeds, each line being the time stamp
    [[MM:SS.CC]] directly followed by the text, with
    MM = floor (ms / 60000), SS = floor ((ms mod 60000) / 1000) and
    CC = floor ((ms mod 1000) / 10), each zero-padded to two digits.  [mod]
    is the remainder of the source, with the sign of the dividend; for start
    times that are not negative it is the usual modulo.  The two lines of the
    example render as [[00:00.00]Line 1] and [[00:01.00]Line 2]. *)
Theorem formatLyrics_lrc_timestamps (lines : list (string * Z))
    (md : option TrackMetadata) :
  (lines ≠ [] →
   Utils.formatLyrics (synced <$> lines) lrc md
   = Ok {| content := JS.join JS.LF (lrc_line Z.rem <$> lines);
           format := lrc; metadata := md |})
  ∧ (lines ≠ [] → Forall (λ line, 0 ≤ line.2) lines →
     Utils.formatLyrics (synced <$> lines) lrc md
     = Ok {| content := JS.join JS.LF (lrc_line Z.modulo <$> lines);
             format := lrc; metadata := md |})
  ∧ Utils.formatLyrics [synced ("Line 1", 0); synced ("Line 2", 1000)] lrc md
    = Ok {| content := "[00:00.00]Line 1" +:+ JS.LF +:+ "[00:01.00]Line 2";
            format := lrc; metadata := md |}.
Proof.
  assert (Hgen : lines ≠ [] →
    Utils.formatLyrics (synced <$> lines) lrc md
    = Ok {| content := JS.join JS.LF (lrc_line Z.rem <$> lines);
            format := lrc; metadata := md |}).
  { intros Hne. unfold Utils.formatLyrics.
    destruct lines as [|line rest]; [done|].
    change (Utils.isSyncedLyrics (synced <$> line :: rest)) with true.
    simpl negb. cbv iota. by rewrite formatToLRC_synced. }
  split; [done|]. split; [|reflexivity].
  intros Hne Hpos. rewrite Hgen by done. do 3 f_equal.
  apply Forall_fmap_ext_1. eapply Forall_impl; [exact Hpos|].
  intros line Hline. by apply lrc_line_nonneg.
Qed.

Lemma formatLyrics_lrc_timestamps_witness :
  Utils.formatLyrics
    [synced ("Intro", 0); synced ("Verse", 61230); synced ("Outro", 6012345)]
    lrc None
  = Ok {| content := "[00:00.00]Intro" +:+ JS.LF +:+ "[01:01.23]Verse"
                     +:+ JS.LF +:+ "[100:12.34]Outro";
          format := lrc; metadata := None |}.
Proof.
  destruct (formatLyrics_lrc_timestamps
              [("Intro", 0); ("Verse", 61230); ("Outro", 6012345)] None)
    as (_ & H & _).
  etrans; [apply H; [discriminate|repeat constructor; simpl; lia]|].
  reflexivity.
Defined.

(** C10: formatting the empty sequence as ['lrc'] throws the
    [ValidationError], because the detection of synced lyrics asks for a
    first line, although every line of the empty sequence has a start time;
    formatting it as ['plain'] succeeds with the empty string. *)
Theorem formatLyrics_empty_sequence (md : option TrackMetadata) :
  Utils.formatLyrics [] lrc md
  = Throw (ValidationError "LRC format requires synced lyrics")
  ∧ Utils.isSyncedLyrics [] = false
  ∧ Forall (λ line, is_Some (startTime line)) []
  ∧ Utils.formatLyrics [] plain md
    = Ok {| content := ""; format := plain; metadata := md |}.
Proof. repeat split. constructor. Qed.

(** ** Query validation *)

Section validation.
Import Utils.

Lemma string_length_zero (s : string) :
  (String.length s =? 0)%nat = true ↔ s = "".
Proof. destruct s; simpl; split; done. Qed.

Lemma not_string_or_blank_false (v : value) :
  not_string_or_blank v = false ↔ ∃ s, v = VStr s ∧ JS.trim s ≠ "".
Proof.
  destruct v as [| | | |s]; simpl; try (split; [done|by intros (? & ? & ?)]).
  rewrite <- not_true_iff_false, string_length_zero. split.
  - intros Hs. by exists s.
  - by intros (s' & [= <-] & Hs).
Qed.

Lemma not_string_or_blank_invalid (v : value) :
  invalid_name v → not_string_or_blank v = true.
Proof.
  intros Hv. apply not_false_iff_true.
  intros (s & -> & Hs)%not_string_or_blank_false.
  destruct Hv as [?|[?|(s' & [= <-] & ?)]]; done.
Qed.

End validation.

(** C3, the part that fails: an [album_name] that is the empty string is
    present and trims to empty, and the query is accepted, without the
    album. *)
Lemma validateQuery_empty_album_accepted :
  JS.trim "" = ""
  ∧ Utils.validateQuery (mkPartial (VStr "a") (VStr "b") (VStr ""))
    = Ok (mkQuery "a" "b" None).
Proof. split; reflexivity. Qed.

(** C3 (amended): [validateQuery] throws a [ValidationError] whenever
    [track_name] or [artist_name] is missing, not a string, or trims to
    empty, and whenever [album_name] is a string that is not empty but trims
    to empty.  When it returns, the result holds the trimmed [track_name]
    and [artist_name], and the trimmed [album_name] if a truthy one was
    given, each without white space at either end; the result has no
    [album_name] when none was supplied (and also when the empty string, or
    another falsy value, was supplied). *)
Theorem validateQuery_rejects_and_trims (q : PartialQuery) :
  (invalid_name (p_track_name q) ∨ invalid_name (p_artist_name q) →
   ∃ msg, Utils.validateQuery q = Throw (ValidationError msg))
  ∧ ((∃ s, p_album_name q = VStr s ∧ s ≠ "" ∧ JS.trim s = "") →
     ∃ msg, Utils.validateQuery q = Throw (ValidationError msg))
  ∧ (∀ r, Utils.validateQuery q = Ok r →
       ∃ t a, p_track_name q = VStr t ∧ p_artist_name q = VStr a
         ∧ track_name r = JS.trim t ∧ artist_name r = JS.trim a
         ∧ (JS.truthy (p_album_name q) = false ∧ album_name r = None
            ∨ ∃ al, p_album_name q = VStr al
                    ∧ album_name r = Some (JS.trim al)))
  ∧ (∀ r, Utils.validateQuery q = Ok r →
       trimmed (track_name r) ∧ trimmed (artist_name r)
       ∧ ∀ al, album_name r = Some al → trimmed al)
  ∧ (p_album_name q = VUndefined →
     ∀ r, Utils.validateQuery q = Ok r → album_name r = None)
  ∧ (∀ t a, p_track_name q = VStr t → JS.trim t ≠ "" →
       p_artist_name q = VStr a → JS.trim a ≠ "" →
       (JS.truthy (p_album_name q) = false →
        Utils.validateQuery q = Ok (mkQuery (JS.trim t) (JS.trim a) None))
       ∧ (∀ al, p_album_name q = VStr al → JS.trim al ≠ "" →
          Utils.validateQuery q
          = Ok (mkQuery (JS.trim t) (JS.trim a) (Some (JS.trim al))))).
Proof.
  destruct q as [tv av alv]. simpl.
  assert (Hok : ∀ r, Utils.validateQuery (mkPartial tv av alv) = Ok r →
       ∃ t a, tv = VStr t ∧ av = VStr a
         ∧ track_name r = JS.trim t ∧ artist_name r = JS.trim a
         ∧ (JS.truthy alv = false ∧ album_name r = None
            ∨ ∃ al, alv = VStr al ∧ album_name r = Some (JS.trim al))).
  { intros r. unfold Utils.validateQuery. simpl.
    destruct (negb (JS.truthy tv) || negb (JS.truthy av)); [done|].
    destruct (Utils.not_string_or_blank tv) eqn:Et; [done|].
    destruct (Utils.not_string_or_blank av) eqn:Ea; [done|].
    apply not_string_or_blank_false in Et as (t & -> & Ht).
    apply not_string_or_blank_false in Ea as (a & -> & Ha).
    destruct (JS.truthy alv) eqn:Etr; simpl.
    - destruct (Utils.not_string_or_blank alv) eqn:Eal; [done|].
      apply not_string_or_blank_false in Eal as (al & -> & Hal).
      intros [= <-]. exists t, a. repeat split. right. by exists al.
    - intros [= <-]. exists t, a. repeat split. by left. }
  split; [|split; [|split; [done|split; [|split]]]].
  - intros Hinv. unfold Utils.validateQuery. simpl.
    destruct (negb (JS.truthy tv) || negb (JS.truthy av)); [eauto|].
    destruct (Utils.not_string_or_blank tv) eqn:Et; [eauto|].
    destruct (Utils.not_string_or_blank av) eqn:Ea; [eauto|].
    destruct Hinv as [H|H]; apply not_string_or_blank_invalid in H; congruence.
  - intros (s & -> & Hs & Htrim). unfold Utils.validateQuery. simpl.
    destruct (negb (JS.truthy tv) || negb (JS.truthy av)); [eauto|].
    destruct (Utils.not_string_or_blank tv); [eauto|].
    destruct (Utils.not_string_or_blank av); [eauto|].
    rewrite Htrim. destruct s; [done|]. simpl. eauto.
  - intros r Hr. destruct (Hok r Hr) as (t & a & _ & _ & -> & -> & H).
    unfold trimmed. rewrite !trim_idem. repeat split.
    intros al' Hal'. destruct H as [[_ ?]|(al & _ & ?)]; [congruence|].
    assert (al' = JS.trim al) as -> by congruence. apply trim_idem.
  - intros -> r Hr. destruct (Hok r Hr) as (t & a & _ & _ & _ & _ & H).
    by destruct H as [[_ ?]|(al & ? & _)].
  - intros t a -> Ht -> Ha.
    assert (Htt : JS.truthy (VStr t) = true).
    { destruct t; [|done]. by destruct Ht. }
    assert (Hta : JS.truthy (VStr a) = true).
    { destruct a; [|done]. by destruct Ha. }
    assert (Hnt : Utils.not_string_or_blank (VStr t) = false).
    { apply not_string_or_blank_false. eauto. }
    assert (Hna : Utils.not_string_or_blank (VStr a) = false).
    { apply not_string_or_blank_false. eauto. }
    split.
    + intros Halv. unfold Utils.validateQuery.
      cbn [p_track_name p_artist_name p_album_name].
      rewrite Htt, Hta, Hnt, Hna, Halv. reflexivity.
    + intros al -> Hal.
      assert (Htal : JS.truthy (VStr al) = true).
      { destruct al; [|done]. by destruct Hal. }
      assert (Hnal : Utils.not_string_or_blank (VStr al) = false).
      { apply not_string_or_blank_false. eauto. }
      unfold Utils.validateQuery.
      cbn [p_track_name p_artist_name p_album_name].
      rewrite Htt, Hta, Hnt, Hna, Htal, Hnal. reflexivity.
Qed.

Lemma validateQuery_rejects_and_trims_witness :
  (∃ msg, Utils.validateQuery (mkPartial VUndefined (VStr "Artist") VUndefined)
          = Throw (ValidationError msg))
  ∧ (∃ msg, Utils.validateQuery (mkPartial (VStr "Song") (VStr "Artist")
                                   (VStr "  "))
            = Throw (ValidationError msg))
  ∧ Utils.validateQuery (mkPartial (VStr "  Test Song  ")
                           (VStr "  Test Artist  ") VUndefined)
    = Ok (mkQuery "Test Song" "Test Artist" None).
Proof.
  split; [|split].
  - destruct (validateQuery_rejects_and_trims
                (mkPartial VUndefined (VStr "Artist") VUndefined)) as [H _].
    apply H. left. by left.
  - destruct (validateQuery_rejects_and_trims
                (mkPartial (VStr "Song") (VStr "Artist") (VStr "  ")))
      as (_ & H & _).
    apply H. exists "  ". by repeat split.
  - destruct (validateQuery_rejects_and_trims
                (mkPartial (VStr "  Test Song  ") (VStr "  Test Artist  ")
                   VUndefined)) as (_ & _ & _ & _ & _ & H).
    destruct (H "  Test Song  " "  Test Artist  ") as [H1 _];
      [reflexivity|discriminate|reflexivity|discriminate|].
    rewrite H1; reflexivity.
Defined.

(** ** The client *)

Section client.
Import Client.

Lemma preserves_ret {A} (a : A) : preserves (ret a).
Proof. by intros w Hw. Qed.

Lemma preserves_throw {A} (e : error) : preserves (@throw A e).
Proof. by intros w Hw. Qed.

Lemma preserves_lift {A} (r : result A) : preserves (lift r).
Proof. by intros w Hw. Qed.

Lemma preserves_get_options : preserves get_options.
Proof. by intros w Hw. Qed.

Lemma preserves_bind {A B} (m : M A) (k : A → M B) :
  preserves m → (∀ a, preserves (k a)) → preserves (bind m k).
Proof.
  intros Hm Hk w Hw. unfold bind. specialize (Hm w Hw).
  destruct (m w) as [[a|e] w']; simpl in *; [by apply Hk|done].
Qed.

Lemma preserves_try_catch {A} (m : M A) (handler : error → M A) :
  preserves m → (∀ e, preserves (handler e)) → preserves (try_catch m handler).
Proof.
  intros Hm Hh w Hw. unfold try_catch. specialize (Hm w Hw).
  destruct (m w) as [[a|e] w']; simpl in *; [done|by apply Hh].
Qed.

Lemma preserves_when (b : bool) (m : M unit) :
  preserves m → preserves (when b m).
Proof. destruct b; simpl; auto using @preserves_ret. Qed.

Lemma preserves_cache_get (key : string) : preserves (cache_get key).
Proof.
  intros w Hw. unfold cache_get, Cache.get.
  destruct (Cache.cache (cache (client w)) !! key) as [entry|]; [|done].
  destruct (Cache.expired (now w) entry); [|done].
  intros k. simpl. intros Hk. apply Hw.
  destruct (decide (key = k)) as [->|Hne].
  - rewrite lookup_delete_eq in Hk. by destruct Hk.
  - by rewrite lookup_delete_ne in Hk.
Qed.

Lemma preserves_cache_set (key : string) (value : Cached) :
  stored_key key → preserves (cache_set key value).
Proof.
  intros Hkey w Hw k. unfold cache_set. simpl. intros Hk.
  destruct (decide (key = k)) as [<-|Hne]; [done|].
  rewrite lookup_insert_ne in Hk by done. by apply Hw.
Qed.

Lemma preserves_check_limit : preserves check_limit.
Proof.
  intros w Hw. unfold check_limit.
  by destruct (RateLimiter.checkLimit _ _).
Qed.

Lemma preserves_withTimeout {A} (fn : promise A) (timeoutMs : Z) :
  preserves (withTimeout fn timeoutMs).
Proof. intros w Hw. unfold withTimeout. by repeat case_match. Qed.

Lemma stored_key_generateKey kind q :
  kind ∈ storing_operations → stored_key (Cache.generateKey kind q).
Proof. intros Hkind. by exists kind, q. Qed.

End client.

(** The steps of a method, one by one. *)
Ltac preserves_step :=
  first
    [ apply preserves_ret
    | apply preserves_throw
    | apply preserves_lift
    | apply preserves_get_options
    | apply preserves_cache_get
    | apply preserves_check_limit
    | apply preserves_withTimeout
    | apply preserves_when
    | apply preserves_cache_set;
      apply stored_key_generateKey; unfold storing_operations; set_solver
    | apply preserves_bind; [|intros ?]
    | apply preserves_try_catch; [|intros ?]
    | match goal with
      | |- preserves (if ?b then _ else _) => destruct b
      | |- preserves (match ?x with _ => _ end) => destruct x
      end ].

Section client_invariant.
Import Client.

Lemma preserves_searchSong p q o : preserves (searchSong p q o).
Proof. unfold searchSong. repeat preserves_step. Qed.

Lemma preserves_getLyricsById trackId o : preserves (getLyricsById trackId o).
Proof. unfold getLyricsById. repeat preserves_step. Qed.

Lemma preserves_getLyricsByMetadata p m o :
  preserves (getLyricsByMetadata p m o).
Proof.
  unfold getLyricsByMetadata.
  repeat first [apply preserves_searchSong | preserves_step].
Qed.

Lemma preserves_getUnsynced p q o : preserves (getUnsynced p q o).
Proof. unfold getUnsynced. repeat preserves_step. Qed.

Lemma preserves_getSynced p q o : preserves (getSynced p q o).
Proof. unfold getSynced. repeat preserves_step. Qed.

Lemma preserves_findLyrics p q : preserves (findLyrics p q).
Proof. unfold findLyrics. repeat preserves_step. Qed.

Lemma keys_ok_after w e : keys_ok w → keys_ok (after w e).
Proof.
  intros Hw. destruct e; simpl.
  - by apply preserves_searchSong.
  - by apply preserves_getLyricsById.
  - by apply preserves_getLyricsByMetadata.
  - by apply preserves_getUnsynced.
  - by apply preserves_getSynced.
  - by apply preserves_findLyrics.
  - intros k. simpl. rewrite lookup_empty. by intros [? ?].
  - intros k. unfold getCacheStats, Cache.clean. simpl.
    intros [entry [Hk _]%map_lookup_filter_Some]. apply Hw. eauto.
  - done.
  - done.
  - done.
Qed.

Lemma reachable_keys_ok w : reachable w → keys_ok w.
Proof.
  induction 1 as [o t0|w e _ IH].
  - intros k. simpl. rewrite lookup_empty. by intros [? ?].
  - by apply keys_ok_after.
Qed.

(** No storing method generates a key of [getLyricsById]. *)
Lemma lyrics_by_id_key_not_stored q :
  ¬ stored_key (Cache.generateKey "lyrics_by_id" q).
Proof.
  intros (kind & q' & Hkind & Heq). unfold Cache.generateKey in Heq.
  revert Heq. generalize (JS.join "|"
    ((λ key, key +:+ ":" +:+ JS.to_string (JS.get q key))
       <$> JS.sort (JS.keys q))).
  generalize (JS.join "|"
    ((λ key, key +:+ ":" +:+ JS.to_string (JS.get q' key))
       <$> JS.sort (JS.keys q'))).
  intros r' r Heq. unfold storing_operations in Hkind.
  repeat (apply elem_of_cons in Hkind as [->|Hkind];
          [repeat rewrite string_app_cons in Heq; discriminate|]).
  by apply elem_of_nil in Hkind.
Qed.

End client_invariant.

(** C8: in every world that a client can reach, and for every track id and
    all options, [getLyricsById] throws: the [NotFoundError] that says it is
    not implemented, or the [Error] that wraps the failure of the rate
    limiter.  It never returns. *)
Theorem getLyricsById_always_fails (w : Client.World) (trackId : Z)
    (options : Client.LyricsOptions) :
  Client.reachable w →
  ∃ e w',
    Client.getLyricsById trackId options w = (Throw e, w')
    ∧ (e = NotFoundError
             "getLyricsById is not yet implemented - use searchSong and getLyricsByMetadata instead"
       ∨ ∃ msg, e = Error ("Failed to get lyrics by ID: " +:+ msg)).
Proof.
  intros Hw%reachable_keys_ok. unfold Client.getLyricsById.
  set (key := Cache.generateKey "lyrics_by_id" _).
  assert (Hmiss : Cache.cache (Client.cache (Client.client w)) !! key = None).
  { apply eq_None_not_Some. intros Hk%Hw.
    by apply lyrics_by_id_key_not_stored in Hk. }
  unfold Client.bind at 1. unfold Client.get_options.
  assert (Hrest : ∀ w0 : Client.World,
    ∃ e w',
      Client.try_catch (A := Client.Cached)
        (Client.bind
           (Client.when (Client.enableRateLimit (Client.options (Client.client w)))
              Client.check_limit)
           (λ _, Client.throw (NotFoundError
              "getLyricsById is not yet implemented - use searchSong and getLyricsByMetadata instead")))
        (λ error, Client.throw
           (Client.rethrow true "Failed to get lyrics by ID: " error)) w0
      = (Throw e, w')
      ∧ (e = NotFoundError
               "getLyricsById is not yet implemented - use searchSong and getLyricsByMetadata instead"
         ∨ ∃ msg, e = Error ("Failed to get lyrics by ID: " +:+ msg))).
  { intros w0. unfold Client.try_catch, Client.bind, Client.when.
    destruct (Client.enableRateLimit _).
    - unfold Client.check_limit.
      destruct (RateLimiter.checkLimit _ _) as [[[]|e] rl] eqn:E.
      + eexists _, _. split; [reflexivity|by left].
      + assert (∃ msg, e = RateLimitError msg) as [msg ->].
        { unfold RateLimiter.checkLimit in E.
          repeat case_match; simplify_eq; eauto. }
        eexists _, _. split; [reflexivity|]. right. by eexists.
    - eexists _, _. split; [reflexivity|by left]. }
  unfold Client.bind.
  destruct (Client.enableCache (Client.options (Client.client w))).
  - unfold Client.cache_get, Cache.get. rewrite Hmiss. apply Hrest.
  - unfold Client.ret. apply Hrest.
Qed.

Lemma getLyricsById_always_fails_witness :
  ∃ e w',
    Client.getLyricsById 12345
      (Client.mkLyricsOptions (Some true) (Some true) (Some lrc))
      (Client.after
         (Client.new (Client.mkClientOptions None None None None None None) 0)
         (Client.GetLyricsById 1 (Client.mkLyricsOptions None None None)))
    = (Throw e, w').
Proof.
  destruct (getLyricsById_always_fails
    (Client.after
       (Client.new (Client.mkClientOptions None None None None None None) 0)
       (Client.GetLyricsById 1 (Client.mkLyricsOptions None None None)))
    12345 (Client.mkLyricsOptions (Some true) (Some true) (Some lrc)))
    as (e & w' & H & _).
  - apply Client.reachable_after, Client.reachable_new.
  - by exists e, w'.
Defined.

(** ** The cases of the test suite *)

Section test_suite.

Example test_format_plain :
  Utils.formatLyrics [mkLine "Line 1" None; mkLine "Line 2" None] plain None
  = Ok {| content := "Line 1" +:+ JS.LF +:+ "Line 2"; format := plain;
          metadata := None |}.
Proof. reflexivity. Qed.

Example test_format_json_empty :
  Utils.formatLyrics [] json None
  = Ok {| content := "[]"; format := json; metadata := None |}.
Proof. reflexivity. Qed.

Example test_similarity_identical :
  Utils.calculateSimilarity "hello" "hello" = 1%Q
  ∧ Utils.calculateSimilarity "Hello" "hello" = 1%Q.
Proof. split; reflexivity. Qed.

Example test_similarity_different :
  (Utils.calculateSimilarity "hello" "xyz" < 1 # 2)%Q
  ∧ (Utils.calculateSimilarity "hello" "" < 1 # 2)%Q.
Proof. split; reflexivity. Qed.

Example readme_similarity :
  Utils.calculateSimilarity "Hello" "Hallo" = (4 # 5)%Q.
Proof. reflexivity. Qed.

Example test_validate_trims :
  Utils.validateQuery
    (mkPartial (VStr "  Test Song  ") (VStr "  Test Artist  ") VUndefined)
  = Ok (mkQuery "Test Song" "Test Artist" None).
Proof. reflexivity. Qed.

Example test_validate_missing :
  Utils.validateQuery (mkPartial VUndefined (VStr "Test Artist") VUndefined)
  = Throw (ValidationError "track_name and artist_name are required")
  ∧ Utils.validateQuery (mkPartial (VStr "Test Song") VUndefined VUndefined)
    = Throw (ValidationError "track_name and artist_name are required")
  ∧ Utils.validateQuery (mkPartial (VStr "") (VStr "Test Artist") VUndefined)
    = Throw (ValidationError "track_name and artist_name are required").
Proof. repeat split. Qed.

Example test_create_search_result :
  let metadata := mkMetadata 123 "Test Song" "Test Song" "Test Artist"
                    "Test Album" 180 false None None in
  let r := Utils.createSearchResult metadata
             (mkQuery "Test Song" "Test Artist" None) in
  (0 < score r)%Q ∧ hasSyncedLyrics r = false ∧ hasUnsyncedLyrics r = false.
Proof. repeat split. Qed.

Example test_rate_limiter_window :
  let rl := RateLimiter.new (Some 2) (Some 1000) 0 in
  (RateLimiter.checkLimit 10 rl).1 = Ok ()
  ∧ (RateLimiter.checkLimit 20 (RateLimiter.run rl [RateLimiter.CheckLimit 10])).1
    = Ok ()
  ∧ (RateLimiter.checkLimit 30
       (RateLimiter.run rl [RateLimiter.CheckLimit 10;
                            RateLimiter.CheckLimit 20])).1
    = Throw (RateLimitError "Rate limit exceeded. Try again in 1 seconds.")
  ∧ (RateLimiter.checkLimit 1000
       (RateLimiter.run rl [RateLimiter.CheckLimit 10;
                            RateLimiter.CheckLimit 20;
                            RateLimiter.CheckLimit 30])).1
    = Ok ().
Proof. repeat split. Qed.

Example test_clear_cache :
  let w := Client.new
             (Client.mkClientOptions (Some false) None (Some false) None None
                None) 0 in
  (Client.getCacheStats (Client.clearCache w).2).1 = Ok (0%nat, 0%nat).
Proof. reflexivity. Qed.

End test_suite.

(** * Further properties *)

(** ** The other methods of the cache *)

Section cache_methods.
Context {T : Type}.
Implicit Types (c : Cache.t T) (k : string) (v : T).

Lemma clean_partition now c :
  filter (λ kv, Cache.expired now kv.2 = true) (Cache.cache c)
  ∪ filter (λ kv, Cache.expired now kv.2 = false) (Cache.cache c)
  = Cache.cache c
  ∧ filter (λ kv, Cache.expired now kv.2 = true) (Cache.cache c)
    ##ₘ filter (λ kv, Cache.expired now kv.2 = false) (Cache.cache c).
Proof.
  assert (Hext : filter (λ kv : string * Cache.CacheEntry T,
                           Cache.expired now kv.2 = false) (Cache.cache c)
               = filter (λ kv, ¬ Cache.expired now kv.2 = true) (Cache.cache c)).
  { apply map_filter_ext. intros i x _. simpl.
    by destruct (Cache.expired now x). }
  rewrite Hext. split.
  - apply map_filter_union_complement.
  - apply map_disjoint_filter_complement.
Qed.

End cache_methods.

(** X1: [get] of a key that holds no entry returns [null] and leaves the
    cache as it is; a [get] that returns a value leaves the cache as it is
    too (a read does not renew the entry); and whatever [get (k)] does, the
    entries under the other keys and the default lifetime stay. *)
Theorem get_changes_nothing_else {T : Type} (c : Cache.t T) (now : Z)
    (k k' : string) :
  (Cache.cache c !! k = None → Cache.get now k c = (None, c))
  ∧ (∀ v, (Cache.get now k c).1 = Some v → (Cache.get now k c).2 = c)
  ∧ (k ≠ k' →
     Cache.cache (Cache.get now k c).2 !! k' = Cache.cache c !! k')
  ∧ Cache.defaultTTL (Cache.get now k c).2 = Cache.defaultTTL c.
Proof.
  unfold Cache.get. destruct (Cache.cache c !! k) as [e|] eqn:E.
  - destruct (Cache.expired now e); simpl; repeat split; try done.
    intros Hne. by rewrite lookup_delete_ne.
  - by repeat split.
Qed.

Lemma get_changes_nothing_else_witness :
  let c := Cache.set 0 "a" 1%nat (Some 5) (Cache.new None) in
  Cache.get 9 "b" c = (None, c)
  ∧ Cache.cache (Cache.get 9 "a" c).2 !! "b" = Cache.cache c !! "b".
Proof.
  intros c.
  destruct (get_changes_nothing_else c 9 "b" "a") as (H1 & _).
  destruct (get_changes_nothing_else c 9 "a" "b") as (_ & _ & H3 & _).
  split; [apply H1; reflexivity|apply H3; discriminate].
Defined.

(** X2: [set] overwrites without condition: a second [set] of the same key
    makes the first one forgotten, value, time stamp and lifetime; the
    entries under the other keys stay; and the size grows by one exactly
    when the key held no entry. *)
Theorem set_overwrites {T : Type} (c : Cache.t T) (now1 now2 : Z)
    (k k' : string) (v1 v2 : T) (ttl1 ttl2 : option Z) :
  Cache.set now2 k v2 ttl2 (Cache.set now1 k v1 ttl1 c)
  = Cache.set now2 k v2 ttl2 c
  ∧ (k ≠ k' →
     Cache.cache (Cache.set now1 k v1 ttl1 c) !! k' = Cache.cache c !! k')
  ∧ Cache.size (Cache.set now1 k v1 ttl1 c)
    = (if Cache.cache c !! k is Some _ then Cache.size c
       else S (Cache.size c)).
Proof.
  unfold Cache.set, Cache.set_cache, Cache.size. simpl. split; [|split].
  - by rewrite insert_insert_eq.
  - intros Hne. by rewrite lookup_insert_ne.
  - rewrite map_size_insert. by destruct (Cache.cache c !! k).
Qed.

Lemma set_overwrites_witness :
  Cache.cache (Cache.set 0 "a" 1%nat None (Cache.new None)) !! "b"
  = Cache.cache (Cache.new (T := nat) None) !! "b".
Proof.
  destruct (set_overwrites (Cache.new None) 0 0 "a" "b" 1%nat 1%nat None None)
    as (_ & H & _).
  apply H. discriminate.
Defined.

(** X3: [delete] returns [true] exactly when the key held an entry, expired
    or not; afterwards [get] of the key returns [null], the other entries
    stay, and the size is one less exactly when [true] was returned. *)
Theorem delete_reports_presence {T : Type} (c : Cache.t T) (now : Z)
    (k k' : string) :
  ((Cache.delete k c).1 = true ↔ is_Some (Cache.cache c !! k))
  ∧ Cache.get now k (Cache.delete k c).2 = (None, (Cache.delete k c).2)
  ∧ (k ≠ k' →
     Cache.cache (Cache.delete k c).2 !! k' = Cache.cache c !! k')
  ∧ Cache.size c
    = (if (Cache.delete k c).1 then S (Cache.size (Cache.delete k c).2)
       else Cache.size (Cache.delete k c).2).
Proof.
  unfold Cache.delete, Cache.get, Cache.size. simpl. split; [|split; [|split]].
  - apply bool_decide_eq_true.
  - by rewrite lookup_delete_eq.
  - intros Hne. by rewrite lookup_delete_ne.
  - rewrite map_size_delete. destruct (Cache.cache c !! k) as [e|] eqn:E.
    + rewrite bool_decide_eq_true_2 by eauto. symmetry. apply Nat.succ_pred.
      apply (map_size_ne_0_lookup_2 _ k). eauto.
    + rewrite bool_decide_eq_false_2; [done|]. by intros [? ?].
Qed.

Lemma delete_reports_presence_witness :
  let c := Cache.set 0 "a" 1%nat None (Cache.new None) in
  (Cache.delete "a" c).1 = true
  ∧ Cache.cache (Cache.delete "a" c).2 !! "b" = Cache.cache c !! "b".
Proof.
  intros c.
  destruct (delete_reports_presence c 0 "a" "b") as (H1 & _ & H3 & _).
  split; [apply H1; by eexists|apply H3; discriminate].
Defined.

(** After [clear] the size is 0 and [get] of every key returns [null],
    whatever the cache held. *)
Lemma clear_drops_everything {T : Type} (c : Cache.t T) (now : Z)
    (k : string) :
  Cache.size (Cache.clear c) = 0%nat
  ∧ Cache.get now k (Cache.clear c) = (None, Cache.clear c).
Proof.
  unfold Cache.clear, Cache.size, Cache.get. simpl.
  by rewrite map_size_empty, lookup_empty.
Qed.

(** X4: [clean] returns the number of entries it drops; it drops exactly the
    expired entries: an entry is there afterwards if and only if it was
    there before and is not expired; the size before is the size after plus
    the number returned. *)
Theorem clean_evicts_expired {T : Type} (c : Cache.t T) (now : Z) :
  (∀ k e, Cache.cache (Cache.clean now c).2 !! k = Some e
          ↔ Cache.cache c !! k = Some e
            ∧ now - Cache.timestamp e ≤ Cache.ttl e)
  ∧ Cache.size c = ((Cache.clean now c).1 + Cache.size (Cache.clean now c).2)%nat
  ∧ Cache.defaultTTL (Cache.clean now c).2 = Cache.defaultTTL c.
Proof.
  unfold Cache.clean, Cache.size. simpl. split; [|split; [|done]].
  - intros k e. rewrite map_lookup_filter_Some. simpl.
    unfold Cache.expired. rewrite Z.ltb_ge. done.
  - destruct (clean_partition now c) as [Hun Hdisj].
    rewrite <- Hun at 1. by apply map_size_disj_union.
Qed.

Lemma clean_evicts_expired_witness :
  let c := Cache.set 0 "a" 1%nat (Some 10)
             (Cache.set 0 "b" 2%nat (Some 100) (Cache.new None)) in
  Cache.cache (Cache.clean 50 c).2 !! "b" = Some (Cache.mkEntry 2%nat 0 100)
  ∧ (Cache.clean 50 c).1 = 1%nat.
Proof.
  intros c. destruct (clean_evicts_expired c 50) as (H1 & H2 & _).
  assert (Hb : Cache.cache (Cache.clean 50 c).2 !! "b"
               = Some (Cache.mkEntry 2%nat 0 100)).
  { apply H1. split; [reflexivity|simpl; lia]. }
  split; [exact Hb|].
  assert (Hsize : Cache.size (Cache.clean 50 c).2 = 1%nat) by reflexivity.
  rewrite Hsize in H2. change (Cache.size c) with 2%nat in H2. lia.
Defined.

(** X5: [clean] is not needed for the answers of [get]: looked up at the
    time of the cleaning, every key gives the same answer with and without
    it; and a second [clean] at that time drops nothing. *)
Theorem clean_is_invisible_to_get {T : Type} (c : Cache.t T) (now : Z)
    (k : string) :
  (Cache.get now k (Cache.clean now c).2).1 = (Cache.get now k c).1
  ∧ (Cache.clean now (Cache.clean now c).2).1 = 0%nat.
Proof.
  split.
  - unfold Cache.get, Cache.clean. simpl.
    destruct (Cache.cache c !! k) as [e|] eqn:E.
    + destruct (Cache.expired now e) eqn:Ee.
      * rewrite (proj2 (map_lookup_filter_None _ _ _)); [done|].
        right. intros e' He'. simpl. congruence.
      * rewrite (proj2 (map_lookup_filter_Some _ _ _ e)) by done.
        by rewrite Ee.
    + rewrite (proj2 (map_lookup_filter_None _ _ _)); [done|]. by left.
  - unfold Cache.clean. simpl. apply map_size_empty_iff.
    apply map_empty. intros i. apply map_lookup_filter_None. right.
    intros x Hx. simpl.
    apply map_lookup_filter_Some in Hx as [_ Hx]. simpl in Hx. congruence.
Qed.

(** ** The rate limiter over a window *)

Section rate_limiter_window.
Import RateLimiter.

Lemma checkLimit_in_window_admits now rl :
  now - windowStart (state rl) < windowMs rl →
  requests (state rl) < maxRequests rl →
  checkLimit now rl
  = (Ok (), set_state rl {| requests := requests (state rl) + 1;
                            windowStart := windowStart (state rl);
                            isLimited := isLimited (state rl) |}).
Proof.
  intros Hwin Hr. unfold checkLimit.
  destruct (windowMs rl <=? now - windowStart (state rl)) eqn:E1;
    zbool; [lia|].
  by destruct (maxRequests rl <=? requests (state rl)) eqn:E2; zbool; [lia|].
Qed.

Lemma checkLimit_in_window_rejects now rl :
  now - windowStart (state rl) < windowMs rl →
  maxRequests rl ≤ requests (state rl) →
  checkLimit now rl
  = (Throw (RateLimitError
              (limit_message (windowStart (state rl) + windowMs rl - now))),
     set_state rl {| requests := requests (state rl);
                     windowStart := windowStart (state rl);
                     isLimited := true |}).
Proof.
  intros Hwin Hr. unfold checkLimit.
  destruct (windowMs rl <=? now - windowStart (state rl)) eqn:E1;
    zbool; [lia|].
  by destruct (maxRequests rl <=? requests (state rl)) eqn:E2; zbool; [|lia].
Qed.

Lemma checkLimit_after_window_admits now rl :
  windowMs rl ≤ now - windowStart (state rl) →
  0 < maxRequests rl →
  checkLimit now rl
  = (Ok (), set_state rl {| requests := 1; windowStart := now;
                            isLimited := false |}).
Proof.
  intros Hwin Hr. unfold checkLimit.
  destruct (windowMs rl <=? now - windowStart (state rl)) eqn:E1;
    zbool; [|lia].
  simpl. by destruct (maxRequests rl <=? 0) eqn:E2; zbool; [lia|].
Qed.

Lemma admitted_in_window ts : ∀ rl,
  Forall (λ t, t - windowStart (state rl) < windowMs rl) ts →
  0 ≤ requests (state rl) ≤ maxRequests rl →
  let k := Nat.min (length ts)
             (Z.to_nat (maxRequests rl - requests (state rl))) in
  admitted rl ts = replicate k true ++ replicate (length ts - k) false
  ∧ requests (state (run rl (CheckLimit <$> ts)))
    = requests (state rl) + Z.of_nat k
  ∧ windowStart (state (run rl (CheckLimit <$> ts))) = windowStart (state rl)
  ∧ maxRequests (run rl (CheckLimit <$> ts)) = maxRequests rl
  ∧ windowMs (run rl (CheckLimit <$> ts)) = windowMs rl.
Proof.
  induction ts as [|t ts IH]; intros rl Hts Hr; [simpl; repeat split; lia|].
  apply Forall_cons in Hts as [Ht Hts].
  cbn [admitted fmap list_fmap run foldl step length].
  destruct (decide (maxRequests rl ≤ requests (state rl))) as [Hfull|Hfree].
  - rewrite checkLimit_in_window_rejects by done. cbn [snd].
    set (rl' := set_state rl _).
    destruct (IH rl') as (H1 & H2 & H3 & H4 & H5); [done|simpl; lia|].
    fold (run rl' (CheckLimit <$> ts)).
    rewrite H1, H2, H3, H4, H5. simpl.
    replace (Z.to_nat (maxRequests rl - requests (state rl))) with 0%nat by lia.
    rewrite !Nat.min_0_r. simpl. rewrite Nat.sub_0_r.
    repeat split; lia.
  - rewrite checkLimit_in_window_admits by lia. cbn [snd].
    set (rl' := set_state rl _).
    destruct (IH rl') as (H1 & H2 & H3 & H4 & H5); [done|simpl; lia|].
    fold (run rl' (CheckLimit <$> ts)).
    rewrite H1, H2, H3, H4, H5. simpl.
    replace (Z.to_nat (maxRequests rl - requests (state rl)))
      with (S (Z.to_nat (maxRequests rl - (requests (state rl) + 1)))) by lia.
    simpl. repeat split; lia.
Qed.

Lemma admitted_app ts1 : ∀ rl ts2,
  admitted rl (ts1 ++ ts2)
  = admitted rl ts1 ++ admitted (run rl (CheckLimit <$> ts1)) ts2.
Proof.
  induction ts1 as [|t ts1 IH]; intros rl ts2; [done|].
  cbn [app admitted fmap list_fmap run foldl step].
  destruct (checkLimit t rl) as [[[]|e] rl'] eqn:E; cbn [snd];
    rewrite IH; reflexivity.
Qed.

Lemma isLimited_invariant cs : ∀ rl,
  (isLimited (state rl) = true → maxRequests rl ≤ requests (state rl)) →
  isLimited (state (run rl cs)) = true →
  maxRequests (run rl cs) ≤ requests (state (run rl cs)).
Proof.
  induction cs as [|c cs IH]; intros rl Hrl; [done|].
  cbn [run foldl]. apply IH. destruct c as [now| |now]; simpl; [|done|done].
  unfold checkLimit. repeat case_match; zbool; simpl in *; try lia; try done.
  intros Hlim. apply Hrl in Hlim. lia.
Qed.

End rate_limiter_window.

(** X6: a new limiter with [maxRequests = N], [0 ≤ N], admits exactly the
    first [N] calls of [checkLimit] made inside its first window and throws
    at all the later ones; the count is the number of admitted calls. *)
Theorem window_admits_exactly_maxRequests (N w t0 : Z) (ts : list Z) :
  0 ≤ N →
  Forall (λ t, t - t0 < w) ts →
  let rl := RateLimiter.new (Some N) (Some w) t0 in
  let k := Nat.min (length ts) (Z.to_nat N) in
  admitted rl ts = replicate k true ++ replicate (length ts - k) false
  ∧ RateLimiter.requests
      (RateLimiter.state (RateLimiter.run rl (RateLimiter.CheckLimit <$> ts)))
    = Z.of_nat k.
Proof.
  intros HN Hts rl k.
  destruct (admitted_in_window ts rl) as (H1 & H2 & _); [done|simpl; lia|].
  simpl in H1, H2. rewrite Z.sub_0_r in H1, H2. split; [exact H1|exact H2].
Qed.

Lemma window_admits_exactly_maxRequests_witness :
  admitted (RateLimiter.new (Some 2) (Some 1000) 0) [10; 20; 30; 999]
  = [true; true; false; false].
Proof.
  destruct (window_admits_exactly_maxRequests 2 1000 0 [10; 20; 30; 999])
    as [H _]; [lia|repeat constructor; lia|].
  exact H.
Defined.

(** X7: the window is fixed, not sliding: with [maxRequests = N] and a
    window of [w > 0] milliseconds, [N] calls in the last millisecond of a
    window and [N] calls in the first millisecond of the next one are all
    admitted, [2 N] calls within two milliseconds. *)
Theorem window_boundary_admits_twice_maxRequests (N w t0 : Z) :
  0 ≤ N → 0 < w →
  admitted (RateLimiter.new (Some N) (Some w) t0)
    (replicate (Z.to_nat N) (t0 + w - 1) ++ replicate (Z.to_nat N) (t0 + w))
  = replicate (2 * Z.to_nat N) true.
Proof.
  intros HN Hw. set (n := Z.to_nat N).
  set (rl := RateLimiter.new (Some N) (Some w) t0).
  rewrite admitted_app.
  destruct (admitted_in_window (replicate n (t0 + w - 1)) rl)
    as (H1 & H2 & H3 & H4 & H5).
  { apply Forall_replicate. simpl. lia. }
  { simpl. lia. }
  rewrite length_replicate in H1, H2. simpl in H1, H2, H3, H4, H5.
  rewrite Z.sub_0_r in H1, H2. fold n in H1, H2.
  rewrite Nat.min_id, Nat.sub_diag in H1. rewrite Nat.min_id in H2.
  rewrite H1. cbn [replicate]. rewrite app_nil_r.
  set (rl1 := RateLimiter.run rl _) in *.
  replace (2 * n)%nat with (n + n)%nat by lia. rewrite replicate_add. f_equal.
  destruct n as [|n'] eqn:En; [done|].
  cbn [replicate admitted].
  rewrite (checkLimit_after_window_admits (t0 + w) rl1) by lia.
  set (rl2 := RateLimiter.set_state rl1 _).
  destruct (admitted_in_window (replicate n' (t0 + w)) rl2) as (H6 & _).
  { apply Forall_replicate. simpl. lia. }
  { simpl. lia. }
  rewrite length_replicate in H6. simpl in H6. rewrite H6, H4.
  replace (Z.to_nat (N - 1)) with n' by lia.
  by rewrite Nat.min_id, Nat.sub_diag, app_nil_r.
Qed.

Lemma window_boundary_admits_twice_maxRequests_witness :
  admitted (RateLimiter.new (Some 3) (Some 60000) 0)
    [59999; 59999; 59999; 60000; 60000; 60000]
  = [true; true; true; true; true; true].
Proof.
  apply (window_boundary_admits_twice_maxRequests 3 60000 0); lia.
Defined.

(** X8: in every state that calls of [checkLimit], [getStatus] and [reset]
    lead a new limiter to, [isLimited] is set only while the count is at the
    limit; and after a call of [checkLimit] it is set if and only if that
    call threw. *)
Theorem isLimited_iff_last_check_threw (N w : option Z) (t0 now : Z)
    (cs : list RateLimiter.call) :
  let rl := RateLimiter.run (RateLimiter.new N w t0) cs in
  (RateLimiter.isLimited (RateLimiter.state rl) = true →
   RateLimiter.maxRequests rl ≤ RateLimiter.requests (RateLimiter.state rl))
  ∧ (RateLimiter.isLimited
       (RateLimiter.state (RateLimiter.checkLimit now rl).2) = true
     ↔ ∃ msg, (RateLimiter.checkLimit now rl).1 = Throw (RateLimitError msg)).
Proof.
  intros rl.
  assert (Hinv : RateLimiter.isLimited (RateLimiter.state rl) = true →
    RateLimiter.maxRequests rl ≤ RateLimiter.requests (RateLimiter.state rl)).
  { apply isLimited_invariant. simpl. done. }
  split; [done|].
  unfold RateLimiter.checkLimit.
  repeat case_match; zbool; simpl in *; split;
    try (intros; by eauto); try (by intros [? ?]); try done.
  intros Hlim. apply Hinv in Hlim. lia.
Qed.

Lemma isLimited_iff_last_check_threw_witness :
  let rl := RateLimiter.run (RateLimiter.new (Some 1) None 0)
              [RateLimiter.CheckLimit 5; RateLimiter.CheckLimit 6] in
  RateLimiter.isLimited (RateLimiter.state rl) = true
  ∧ RateLimiter.maxRequests rl ≤ RateLimiter.requests (RateLimiter.state rl).
Proof.
  intros rl.
  destruct (isLimited_iff_last_check_threw (Some 1) None 0 7
              [RateLimiter.CheckLimit 5; RateLimiter.CheckLimit 6])
    as [H _].
  split; [reflexivity|apply H; reflexivity].
Defined.

(** X9: when [checkLimit] throws, it throws a [RateLimitError] whose
    message gives the time to the end of the window, rounded up to seconds;
    if the window is positive and the clock is not before the start of the
    window, that time is more than 0 and at most the window, so the message
    names at least 1 second. *)
Theorem checkLimit_wait_hint (now : Z) (rl : RateLimiter.t) (e : error) :
  (RateLimiter.checkLimit now rl).1 = Throw e →
  let wait := RateLimiter.windowStart
                (RateLimiter.state (RateLimiter.checkLimit now rl).2)
              + RateLimiter.windowMs rl - now in
  e = RateLimitError (RateLimiter.limit_message wait)
  ∧ (0 < RateLimiter.windowMs rl →
     RateLimiter.windowStart (RateLimiter.state rl) ≤ now →
     0 < wait ≤ RateLimiter.windowMs rl
     ∧ 1 ≤ JS.ceil_div wait 1000
         ≤ JS.ceil_div (RateLimiter.windowMs rl) 1000).
Proof.
  unfold RateLimiter.checkLimit.
  destruct (RateLimiter.windowMs rl
            <=? now - RateLimiter.windowStart (RateLimiter.state rl)) eqn:E1;
    zbool; simpl;
    (destruct (RateLimiter.maxRequests rl <=? _) eqn:E2; [|done]);
    zbool; simpl; intros [= <-]; (split; [done|]); intros Hw Hclock;
    unfold JS.ceil_div.
  - replace (now + RateLimiter.windowMs rl - now)
      with (RateLimiter.windowMs rl) by lia.
    split; [lia|]. split; [|lia].
    pose proof (Z.div_lt_upper_bound (- RateLimiter.windowMs rl) 1000 0).
    lia.
  - split; [lia|].
    set (wait := RateLimiter.windowStart (RateLimiter.state rl)
                 + RateLimiter.windowMs rl - now).
    assert (0 < wait ≤ RateLimiter.windowMs rl) as Hwait by (unfold wait; lia).
    pose proof (Z.div_lt_upper_bound (- wait) 1000 0).
    pose proof (Z.div_le_mono (- RateLimiter.windowMs rl) (- wait) 1000).
    lia.
Qed.

Lemma checkLimit_wait_hint_witness :
  let rl := RateLimiter.run (RateLimiter.new (Some 1) (Some 60000) 0)
              [RateLimiter.CheckLimit 100] in
  (RateLimiter.checkLimit 1500 rl).1
  = Throw (RateLimitError "Rate limit exceeded. Try again in 59 seconds.").
Proof.
  intros rl.
  destruct (checkLimit_wait_hint 1500 rl
    (RateLimitError "Rate limit exceeded. Try again in 59 seconds."))
    as [H _]; [reflexivity|].
  reflexivity.
Defined.

(** ** More on the similarity score *)

Section similarity_more.
Import Utils.
Local Open Scope nat_scope.

Lemma string_get_ext (s1 : string) : ∀ s2,
  String.length s1 = String.length s2 →
  (∀ p, p < String.length s1 → String.get p s1 = String.get p s2) →
  s1 = s2.
Proof.
  induction s1 as [|a s1 IH]; intros [|b s2] Hlen Hget; try done.
  simpl in Hlen. f_equal.
  - specialize (Hget 0). simpl in Hget. injection Hget; [done|lia].
  - apply IH; [lia|]. intros p Hp. apply (Hget (S p)). simpl. lia.
Qed.

Lemma cost_zero s1 s2 i j :
  cost s1 s2 (S i) (S j) = 0 → String.get i s1 = String.get j s2.
Proof.
  unfold cost. rewrite !Nat.sub_succ, !Nat.sub_0_r. by case_decide.
Qed.

Lemma dist_zero s1 s2 j : ∀ i,
  dist s1 s2 j i = 0 →
  i = j ∧ ∀ p, p < i → String.get p s1 = String.get p s2.
Proof.
  induction j as [|j IHj]; intros i.
  - simpl. intros ->. split; [done|]. intros; lia.
  - destruct i as [|i]; [done|]. rewrite dist_S_S. intros H.
    assert (dist s1 s2 j i = 0 ∧ cost s1 s2 (S i) (S j) = 0) as [Hd Hc] by lia.
    destruct (IHj i Hd) as [-> Hpre]. split; [done|].
    intros p Hp. destruct (decide (p = j)) as [->|Hne].
    + by apply cost_zero.
    + apply Hpre. lia.
Qed.

Lemma dist_ge_difference s1 s2 j : ∀ i,
  i - j ≤ dist s1 s2 j i ∧ j - i ≤ dist s1 s2 j i.
Proof.
  induction j as [|j IHj]; intros i; [simpl; lia|].
  induction i as [|i IHi]; [simpl; lia|].
  rewrite dist_S_S.
  pose proof (IHj i). pose proof (IHj (S i)). lia.
Qed.

Lemma dist_different s1 s2 :
  s1 ≠ s2 → 0 < dist s1 s2 (String.length s2) (String.length s1).
Proof.
  intros Hne.
  destruct (dist s1 s2 (String.length s2) (String.length s1)) eqn:E; [|lia].
  destruct Hne. apply dist_zero in E as [Hlen Hget].
  by apply string_get_ext.
Qed.

Lemma lower_char_idem c : JS.lower_char (JS.lower_char c) = JS.lower_char c.
Proof. by destruct c as [[] [] [] [] [] [] [] []]. Qed.

Lemma lower_char_white_space c :
  JS.is_white_space (JS.lower_char c) = JS.is_white_space c.
Proof. by destruct c as [[] [] [] [] [] [] [] []]. Qed.

Lemma toLowerCase_idem s : JS.toLowerCase (JS.toLowerCase s) = JS.toLowerCase s.
Proof.
  induction s as [|a s IH]; simpl; [done|]. by rewrite lower_char_idem, IH.
Qed.

Lemma chars_toLowerCase s :
  list_ascii_of_string (JS.toLowerCase s)
  = JS.lower_char <$> list_ascii_of_string s.
Proof. induction s as [|a s IH]; simpl; [done|]. by rewrite IH. Qed.

Lemma toLowerCase_rev s :
  JS.toLowerCase (String.rev s) = String.rev (JS.toLowerCase s).
Proof.
  apply chars_inj.
  by rewrite chars_toLowerCase, !chars_rev, chars_toLowerCase, fmap_reverse.
Qed.

Lemma toLowerCase_trimStart s :
  JS.toLowerCase (JS.trimStart s) = JS.trimStart (JS.toLowerCase s).
Proof.
  induction s as [|a s IH]; simpl; [done|].
  rewrite lower_char_white_space.
  by destruct (JS.is_white_space a).
Qed.

Lemma toLowerCase_trim s : JS.toLowerCase (JS.trim s) = JS.trim (JS.toLowerCase s).
Proof.
  unfold JS.trim, JS.trimEnd.
  by rewrite toLowerCase_rev, toLowerCase_trimStart, toLowerCase_rev,
    toLowerCase_trimStart.
Qed.

Lemma calculateSimilarity_sym a b :
  calculateSimilarity a b = calculateSimilarity b a.
Proof.
  unfold calculateSimilarity.
  set (s1 := JS.trim (JS.toLowerCase a)).
  set (s2 := JS.trim (JS.toLowerCase b)).
  rewrite (String.eqb_sym s2 s1).
  destruct (String.eqb s1 s2); [done|].
  rewrite (Nat.max_comm (String.length s2)).
  destruct (_ =? 0); [done|].
  by rewrite !levenshtein_table_spec, (dist_sym s1 s2) by done.
Qed.

End similarity_more.

(** X10: the score is 1 only for strings that are equal after lower-casing
    and trimming: two strings that differ after that score less than 1. *)
Theorem calculateSimilarity_one_iff (a b : string) :
  (Utils.calculateSimilarity a b == 1)%Q
  ↔ JS.trim (JS.toLowerCase a) = JS.trim (JS.toLowerCase b).
Proof.
  unfold Utils.calculateSimilarity.
  set (s1 := JS.trim (JS.toLowerCase a)).
  set (s2 := JS.trim (JS.toLowerCase b)).
  destruct (String.eqb_spec s1 s2) as [Heq|Hne]; [done|].
  split; [|done]. intros H. exfalso.
  destruct (_ =? 0)%nat eqn:E.
  - apply Nat.eqb_eq in E. destruct Hne.
    destruct s1, s2; simpl in E; try lia. done.
  - apply Nat.eqb_neq in E.
    rewrite levenshtein_table_spec in H by done.
    pose proof (dist_different s1 s2 Hne).
    unfold Qeq in H. simpl in H. lia.
Qed.

Lemma calculateSimilarity_one_iff_witness :
  (Utils.calculateSimilarity "  Hello " "hello" == 1)%Q.
Proof. apply calculateSimilarity_one_iff. reflexivity. Defined.

(** X11: a string that is empty after lower-casing and trimming scores 0
    against every string that is not, on either side. *)
Theorem calculateSimilarity_empty (a b : string) :
  JS.trim (JS.toLowerCase b) = "" →
  JS.trim (JS.toLowerCase a) ≠ "" →
  (Utils.calculateSimilarity a b == 0)%Q
  ∧ (Utils.calculateSimilarity b a == 0)%Q.
Proof.
  intros Hb Ha.
  assert (H0 : (Utils.calculateSimilarity a b == 0)%Q).
  { unfold Utils.calculateSimilarity. rewrite Hb.
    set (s1 := JS.trim (JS.toLowerCase a)) in *.
    destruct (String.eqb_spec s1 "") as [Heq|Hne]; [done|].
    destruct s1 as [|c s1]; [done|]. simpl String.length.
    rewrite levenshtein_table_spec by (simpl; lia).
    simpl. unfold Qeq. simpl. lia. }
  split; [done|].
  by rewrite <- (calculateSimilarity_sym a b).
Qed.

Lemma calculateSimilarity_empty_witness :
  (Utils.calculateSimilarity "hello" "  " == 0)%Q.
Proof.
  destruct (calculateSimilarity_empty "hello" "  ") as [H _];
    [reflexivity|discriminate|exact H].
Defined.

(** X12: the score is at most the length of the shorter string over the
    length of the longer one (lengths after lower-casing and trimming, one
    of them at least not 0): strings of very different lengths cannot score
    high. *)
Theorem calculateSimilarity_length_ratio (a b : string) :
  let n1 := String.length (JS.trim (JS.toLowerCase a)) in
  let n2 := String.length (JS.trim (JS.toLowerCase b)) in
  (0 < Nat.max n1 n2)%nat →
  (Utils.calculateSimilarity a b
   <= Z.of_nat (Nat.min n1 n2) # Pos.of_nat (Nat.max n1 n2))%Q.
Proof.
  intros n1 n2 Hmax. unfold Utils.calculateSimilarity.
  set (s1 := JS.trim (JS.toLowerCase a)) in *.
  set (s2 := JS.trim (JS.toLowerCase b)) in *.
  destruct (String.eqb_spec s1 s2) as [Heq|Hne].
  - unfold n1, n2 in *. rewrite Heq in *.
    rewrite Nat.max_id, Nat.min_id in *. unfold Qle. simpl. lia.
  - fold n1 n2. destruct (_ =? 0)%nat eqn:E; [apply Nat.eqb_eq in E; lia|].
    rewrite levenshtein_table_spec by done.
    destruct (dist_ge_difference s1 s2 n2 n1). unfold Qle. simpl. nia.
Qed.

Lemma calculateSimilarity_length_ratio_witness :
  (Utils.calculateSimilarity "ab" "a much longer title" <= 2 # 19)%Q.
Proof.
  apply (calculateSimilarity_length_ratio "ab" "a much longer title").
  simpl. lia.
Defined.

(** X13: letter case and white space at the ends do not matter: lower-casing
    or trimming an argument does not change the score. *)
Theorem calculateSimilarity_insensitive (a b : string) :
  Utils.calculateSimilarity (JS.toLowerCase a) b = Utils.calculateSimilarity a b
  ∧ Utils.calculateSimilarity (JS.trim a) b = Utils.calculateSimilarity a b
  ∧ Utils.calculateSimilarity a (JS.toLowerCase b)
    = Utils.calculateSimilarity a b
  ∧ Utils.calculateSimilarity a (JS.trim b) = Utils.calculateSimilarity a b.
Proof.
  unfold Utils.calculateSimilarity.
  by rewrite !toLowerCase_idem, !toLowerCase_trim, !trim_idem.
Qed.

(** ** The search score *)

Section search_score.
Import Utils.



End search_score.



(** ** Sorting and retrying *)

Section sorting.
Import Utils.

Lemma insert_by_Permutation {A} (cmp : A → A → Q) x (l : list A) :
  insert_by cmp x l ≡ₚ x :: l.
Proof.
  induction l as [|y l IH]; simpl; [done|].
  destruct (Qlt_le_dec 0 (cmp x y)); [|done].
  by rewrite IH, Permutation_swap.
Qed.

Lemma sort_by_Permutation {A} (cmp : A → A → Q) (l : list A) :
  sort_by cmp l ≡ₚ l.
Proof.
  induction l as [|x l IH]; simpl; [done|].
  by rewrite insert_by_Permutation, IH.
Qed.

Lemma insert_by_score_sorted x l :
  StronglySorted score_ge l →
  StronglySorted score_ge (insert_by (λ a b, (score b - score a)%Q) x l).
Proof.
  induction 1 as [|y l Hl IH Hy]; simpl; [repeat constructor|].
  destruct (Qlt_le_dec 0 (score y - score x)) as [Hlt|Hle].
  - constructor; [done|]. rewrite insert_by_Permutation.
    constructor; [|done]. unfold score_ge. lra.
  - constructor; [by constructor|]. constructor; [unfold score_ge; lra|].
    eapply Forall_impl; [exact Hy|]. unfold score_ge. intros z Hz. lra.
Qed.

Lemma insert_by_score_stable v x l :
  with_score v (insert_by (λ a b, (score b - score a)%Q) x l)
  = with_score v (x :: l).
Proof.
  unfold with_score. induction l as [|y l IH]; simpl; [done|].
  destruct (Qlt_le_dec 0 (score y - score x)) as [Hlt|Hle]; [|done].
  rewrite !filter_cons in *. rewrite IH.
  destruct (decide (Qeq_bool (score x) v = true)) as [Hx|Hx]; [|done].
  destruct (decide (Qeq_bool (score y) v = true)) as [Hy|Hy]; [|done].
  apply Qeq_bool_iff in Hx, Hy. lra.
Qed.

Lemma retry_from_succeeds {T} (fn : nat → result T) (b : Z) (a : T) k :
  ∀ i remaining,
    (k ≤ remaining)%nat →
    (∀ j, (i ≤ j < i + k)%nat → ∃ e, fn j = Throw e) →
    fn (i + k)%nat = Ok a →
    retry_from fn b remaining i
    = (Ok a, S (i + k), b * (2 ^ Z.of_nat (i + k) - 2 ^ Z.of_nat i)).
Proof.
  induction k as [|k IH]; intros i remaining Hk Hfail Hok.
  - rewrite Nat.add_0_r in *. destruct remaining; simpl; rewrite Hok;
      do 2 f_equal; lia.
  - destruct (Hfail i) as [e He]; [lia|].
    destruct remaining as [|remaining]; [lia|].
    replace (i + S k)%nat with (S i + k)%nat in * by lia.
    cbn [retry_from]. rewrite He.
    rewrite (IH (S i) remaining); [| lia | intros j Hj; apply Hfail; lia
                                   | done].
    do 2 f_equal.
    rewrite (Nat2Z.inj_succ i), Z.pow_succ_r by lia. lia.
Qed.

Lemma retry_from_gives_up {T} (fn : nat → result T) (b : Z) (e : error)
    remaining : ∀ i,
    (∀ j, (i ≤ j < i + remaining)%nat → ∃ e, fn j = Throw e) →
    fn (i + remaining)%nat = Throw e →
    retry_from fn b remaining i
    = (Throw e, S (i + remaining),
       b * (2 ^ Z.of_nat (i + remaining) - 2 ^ Z.of_nat i)).
Proof.
  induction remaining as [|remaining IH]; intros i Hfail Hlast.
  - rewrite Nat.add_0_r in *. simpl. rewrite Hlast. do 2 f_equal; lia.
  - destruct (Hfail i) as [e' He']; [lia|].
    replace (i + S remaining)%nat with (S i + remaining)%nat in * by lia.
    cbn [retry_from]. rewrite He'.
    rewrite (IH (S i)); [| intros j Hj; apply Hfail; lia | done].
    do 2 f_equal.
    rewrite (Nat2Z.inj_succ i), Z.pow_succ_r by lia. lia.
Qed.

End sorting.

(** X15: [sortSearchResults] returns the same results in another order,
    from the highest score to the lowest, and results of equal score keep
    the order they had. *)
Theorem sortSearchResults_descending_stable (results : list SearchResult) :
  Utils.sortSearchResults results ≡ₚ results
  ∧ StronglySorted score_ge (Utils.sortSearchResults results)
  ∧ ∀ v, with_score v (Utils.sortSearchResults results) = with_score v results.
Proof.
  unfold Utils.sortSearchResults. split; [apply sort_by_Permutation|]. split.
  - induction results as [|x l IH]; simpl; [constructor|].
    by apply insert_by_score_sorted.
  - intros v. induction results as [|x l IH]; simpl; [done|].
    rewrite insert_by_score_stable. unfold with_score in *.
    by rewrite !filter_cons, IH.
Qed.

(** X16: [retry] with [maxRetries ≥ 0] calls [fn] until a call returns, at
    most [maxRetries + 1] times.  If call [k] is the first to return, its
    value is returned after [k + 1] calls and a total delay of
    [baseDelay * (2 ^ k - 1)]; if all [maxRetries + 1] calls throw, the
    error of the last one is thrown after a total delay of
    [baseDelay * (2 ^ maxRetries - 1)]. *)
Theorem retry_backoff {T : Type} (fn : nat → result T)
    (maxRetries baseDelay : Z) (k : nat) :
  0 ≤ maxRetries →
  fails_before fn k →
  (∀ a, (k ≤ Z.to_nat maxRetries)%nat → fn k = Ok a →
     Utils.retry fn (Some maxRetries) (Some baseDelay)
     = Some (Ok a, S k, baseDelay * (2 ^ Z.of_nat k - 1)))
  ∧ (∀ e, k = Z.to_nat maxRetries → fn k = Throw e →
     Utils.retry fn (Some maxRetries) (Some baseDelay)
     = Some (Throw e, S k, baseDelay * (2 ^ maxRetries - 1))).
Proof.
  intros Hmax Hfail. unfold Utils.retry. simpl.
  destruct (maxRetries <? 0) eqn:E; zbool; [lia|]. split.
  - intros a Hk Hok.
    rewrite (retry_from_succeeds fn baseDelay a k 0); [done|done| |done].
    intros j Hj. apply Hfail. lia.
  - intros e -> Hlast.
    rewrite (retry_from_gives_up fn baseDelay e (Z.to_nat maxRetries) 0);
      [|intros j Hj; apply Hfail; lia|done].
    simpl. by rewrite Z2Nat.id by lia.
Qed.

Lemma retry_backoff_witness :
  Utils.retry
    (λ i, if (i <? 2)%nat then Throw (TimeoutError "Request timeout")
          else Ok "lyrics")
    (Some 3) (Some 1000)
  = Some (Ok "lyrics", 3%nat, 3000).
Proof.
  destruct (retry_backoff
    (λ i, if (i <? 2)%nat then Throw (TimeoutError "Request timeout")
          else Ok "lyrics") 3 1000 2) as [H _]; [lia| |].
  - intros i Hi. exists (TimeoutError "Request timeout").
    by destruct i as [|[|i]]; [| |lia].
  - apply H; [simpl; lia|reflexivity].
Defined.

Example test_sort_results :
  let r s := mkSearchResult
               (mkMetadata 0 "" "" "" "" 0 false None None) s false false in
  score <$> Utils.sortSearchResults [r (5 # 10); r (8 # 10); r (3 # 10)]
  = [8 # 10; 5 # 10; 3 # 10]%Q.
Proof. reflexivity. Qed.

(** ** More on validation and formatting *)

Section validation_more.
Import Utils.

Lemma validateQuery_Ok_inv q r :
  validateQuery q = Ok r →
  ∃ t a, p_track_name q = VStr t ∧ JS.trim t ≠ ""
         ∧ p_artist_name q = VStr a ∧ JS.trim a ≠ ""
         ∧ track_name r = JS.trim t ∧ artist_name r = JS.trim a
         ∧ (album_name r = None
            ∨ ∃ al, JS.trim al ≠ "" ∧ album_name r = Some (JS.trim al)).
Proof.
  destruct q as [tv av alv]. unfold validateQuery. simpl.
  destruct (negb (JS.truthy tv) || negb (JS.truthy av)); [done|].
  destruct (not_string_or_blank tv) eqn:Et; [done|].
  destruct (not_string_or_blank av) eqn:Ea; [done|].
  apply not_string_or_blank_false in Et as (t & -> & Ht).
  apply not_string_or_blank_false in Ea as (a & -> & Ha).
  destruct (JS.truthy alv) eqn:Etr; simpl.
  - destruct (not_string_or_blank alv) eqn:Eal; [done|].
    apply not_string_or_blank_false in Eal as (al & -> & Hal).
    intros [= <-]. exists t, a. repeat split; try done. right. by exists al.
  - intros [= <-]. exists t, a. repeat split; try done. by left.
Qed.

Lemma trimmed_name_accepted s :
  JS.trim s ≠ "" →
  JS.truthy (VStr (JS.trim s)) = true
  ∧ not_string_or_blank (VStr (JS.trim s)) = false.
Proof.
  intros Hs. split.
  - simpl. by destruct (JS.trim s).
  - apply not_string_or_blank_false. exists (JS.trim s).
    by rewrite trim_idem.
Qed.

Lemma zero_pad2_two_digits x : 0 ≤ x < 100 → zero_pad2 x = two_digits x.
Proof.
  intros Hx. rewrite <- (Z2Nat.id x) by lia.
  assert (Z.to_nat x < 100)%nat as Hn by lia.
  generalize dependent (Z.to_nat x). clear x Hx. intros n Hn.
  do 100 (destruct n as [|n]; [reflexivity|]). lia.
Qed.

Lemma lrc_line_fixed_spec line :
  0 ≤ line.2 < 6000000 → lrc_line Z.rem line = lrc_line_fixed line.
Proof.
  intros Hms. unfold lrc_line, lrc_line_fixed.
  rewrite !Z.rem_mod_nonneg by lia.
  rewrite !zero_pad2_two_digits.
  - replace ((line.2 `mod` 60000) `div` 1000)
      with ((line.2 `div` 1000) `mod` 60)
      by (Z.div_mod_to_equations; lia).
    replace ((line.2 `mod` 1000) `div` 10)
      with ((line.2 `div` 10) `mod` 100)
      by (Z.div_mod_to_equations; lia).
    reflexivity.
  - Z.div_mod_to_equations; lia.
  - Z.div_mod_to_equations; lia.
  - Z.div_mod_to_equations; lia.
Qed.

End validation_more.

(** X17: a query that [validateQuery] returned passes [validateQuery]
    unchanged. *)
Theorem validateQuery_idempotent (q : PartialQuery) (r : LyricsQuery) :
  Utils.validateQuery q = Ok r →
  Utils.validateQuery (Client.query_partial r) = Ok r.
Proof.
  intros (t & a & _ & Ht & _ & Ha & Htr & Har & Hal)%validateQuery_Ok_inv.
  destruct r as [rt ra ral]. simpl in *. subst rt ra.
  destruct (trimmed_name_accepted t Ht) as [Ht1 Ht2].
  destruct (trimmed_name_accepted a Ha) as [Ha1 Ha2].
  unfold Utils.validateQuery, Client.query_partial.
  cbn [p_track_name p_artist_name p_album_name track_name artist_name
       album_name].
  rewrite Ht1, Ha1, Ht2, Ha2. cbn [negb orb].
  destruct Hal as [->|(al & Hal & ->)].
  - simpl. by rewrite !trim_idem.
  - destruct (trimmed_name_accepted al Hal) as [Hal1 Hal2].
    cbn [from_option]. rewrite Hal1, Hal2. simpl. by rewrite !trim_idem.
Qed.

Lemma validateQuery_idempotent_witness :
  Utils.validateQuery
    (Client.query_partial (mkQuery "Test Song" "Test Artist" (Some "Album")))
  = Ok (mkQuery "Test Song" "Test Artist" (Some "Album")).
Proof.
  apply (validateQuery_idempotent
           (mkPartial (VStr " Test Song ") (VStr "Test Artist  ")
              (VStr " Album"))).
  reflexivity.
Defined.

(** X18: for start times from 0 to below 100 minutes, every line of LRC
    output is a time stamp of exactly ten characters, [[MM:SS.CC]] with two
    digits each for the minutes, the seconds of the minute and the
    hundredths of the second, followed by the text. *)
Theorem formatToLRC_fixed_width (lines : list (string * Z)) :
  Forall (λ line, 0 ≤ line.2 < 6000000) lines →
  Utils.formatToLRC (synced <$> lines)
  = JS.join JS.LF (lrc_line_fixed <$> lines)
  ∧ Forall (λ line,
      String.length (Utils.formatToLRC [synced line])
      = (10 + String.length line.1)%nat) lines.
Proof.
  intros Hall. split.
  - rewrite formatToLRC_synced. f_equal. apply Forall_fmap_ext_1.
    eapply Forall_impl; [exact Hall|]. intros line. apply lrc_line_fixed_spec.
  - eapply Forall_impl; [exact Hall|]. intros line Hline.
    change [synced line] with (synced <$> [line]).
    rewrite formatToLRC_synced. cbn [fmap list_fmap JS.join].
    rewrite lrc_line_fixed_spec by done. unfold lrc_line_fixed.
    by rewrite !string_length_app.
Qed.

Lemma formatToLRC_fixed_width_witness :
  Utils.formatToLRC [synced ("Verse", 61230); synced ("Outro", 5999999)]
  = "[01:01.23]Verse" +:+ JS.LF +:+ "[99:59.99]Outro".
Proof.
  destruct (formatToLRC_fixed_width [("Verse", 61230); ("Outro", 5999999)])
    as [H _]; [repeat constructor; simpl; lia|].
  etrans; [exact H|reflexivity].
Defined.

(** ** Invariants of the client *)

Section client_keeps.
Import Client.
Variable O : Options.
Variable J : World → Prop.
Hypothesis J_advance : ∀ w dt, J w → J (advance dt w).
Hypothesis J_check_limit :
  enableRateLimit O = true → ∀ w, configured O J w → J (check_limit w).2.
Hypothesis J_cache_get :
  enableCache O = true → ∀ w k, configured O J w → J (cache_get k w).2.
Hypothesis J_cache_set :
  enableCache O = true → ∀ w k v, configured O J w → J (cache_set k v w).2.

Let I := configured O J.

Lemma keeps_ret {A} (a : A) : keeps I (ret a).
Proof. by intros w Hw. Qed.

Lemma keeps_throw {A} (e : error) : keeps I (@throw A e).
Proof. by intros w Hw. Qed.

Lemma keeps_lift {A} (r : result A) : keeps I (lift r).
Proof. by intros w Hw. Qed.

Lemma keeps_bind {A B} (m : M A) (k : A → M B) :
  keeps I m → (∀ a, keeps I (k a)) → keeps I (bind m k).
Proof.
  intros Hm Hk w Hw. unfold bind. specialize (Hm w Hw).
  destruct (m w) as [[a|e] w']; simpl in *; [by apply Hk|done].
Qed.

Lemma keeps_get_options {A} (k : Options → M A) :
  keeps I (k O) → keeps I (bind get_options k).
Proof.
  intros Hk w Hw. unfold bind, get_options. destruct Hw as [HO HJ].
  rewrite HO. apply Hk. by split.
Qed.

Lemma keeps_try_catch {A} (m : M A) (handler : error → M A) :
  keeps I m → (∀ e, keeps I (handler e)) → keeps I (try_catch m handler).
Proof.
  intros Hm Hh w Hw. unfold try_catch. specialize (Hm w Hw).
  destruct (m w) as [[a|e] w']; simpl in *; [done|by apply Hh].
Qed.

Lemma keeps_withTimeout {A} (fn : promise A) (timeoutMs : Z) :
  keeps I (withTimeout fn timeoutMs).
Proof.
  intros w [HO HJ]. unfold withTimeout.
  repeat case_match; simpl; split; try done; by apply J_advance.
Qed.

Lemma keeps_check_limit : keeps I (when (enableRateLimit O) check_limit).
Proof.
  destruct (enableRateLimit O) eqn:E; [|apply keeps_ret].
  intros w Hw. split; [|by apply J_check_limit].
  destruct Hw as [HO _]. unfold when, check_limit.
  by destruct (RateLimiter.checkLimit (now w) (rateLimiter (client w))).
Qed.

Lemma keeps_cache_get key :
  keeps I (if enableCache O then cache_get key else ret None).
Proof.
  destruct (enableCache O) eqn:E; [|apply keeps_ret].
  intros w Hw. split; [|by apply J_cache_get].
  destruct Hw as [HO _]. unfold cache_get.
  by destruct (Cache.get (now w) key (cache (client w))).
Qed.

Lemma keeps_cache_set key value :
  keeps I (when (enableCache O) (cache_set key value)).
Proof.
  destruct (enableCache O) eqn:E; [|apply keeps_ret].
  intros w Hw. split; [|by apply J_cache_set]. by destruct Hw as [HO _].
Qed.

End client_keeps.

Ltac keeps_step :=
  first
    [ apply keeps_ret
    | apply keeps_throw
    | apply keeps_lift
    | apply keeps_withTimeout; assumption
    | apply keeps_check_limit; assumption
    | apply keeps_cache_get; assumption
    | apply keeps_cache_set; assumption
    | apply keeps_get_options
    | apply keeps_bind; [|intros ?]
    | apply keeps_try_catch; [|intros ?]
    | match goal with
      | |- keeps _ (if ?b then _ else _) => destruct b
      | |- keeps _ (match ?x with _ => _ end) => destruct x
      end ].

Section client_configured.
Import Client.
Variable O : Options.
Variable J : World → Prop.
Hypothesis J_advance : ∀ w dt, J w → J (advance dt w).
Hypothesis J_check_limit :
  enableRateLimit O = true → ∀ w, configured O J w → J (check_limit w).2.
Hypothesis J_cache_get :
  enableCache O = true → ∀ w k, configured O J w → J (cache_get k w).2.
Hypothesis J_cache_set :
  enableCache O = true → ∀ w k v, configured O J w → J (cache_set k v w).2.
Hypothesis J_clearCache : ∀ w, configured O J w → J (clearCache w).2.
Hypothesis J_getCacheStats : ∀ w, configured O J w → J (getCacheStats w).2.
Hypothesis J_resetRateLimit : ∀ w, configured O J w → J (resetRateLimit w).2.

Lemma keeps_searchSong p q o : keeps (configured O J) (searchSong p q o).
Proof. unfold searchSong. repeat keeps_step. Qed.

Lemma keeps_getLyricsById trackId o :
  keeps (configured O J) (getLyricsById trackId o).
Proof. unfold getLyricsById. repeat keeps_step. Qed.

Lemma keeps_getLyricsByMetadata p m o :
  keeps (configured O J) (getLyricsByMetadata p m o).
Proof.
  unfold getLyricsByMetadata.
  repeat first [apply keeps_searchSong | keeps_step].
Qed.

Lemma keeps_getUnsynced p q o : keeps (configured O J) (getUnsynced p q o).
Proof. unfold getUnsynced. repeat keeps_step. Qed.

Lemma keeps_getSynced p q o : keeps (configured O J) (getSynced p q o).
Proof. unfold getSynced. repeat keeps_step. Qed.

Lemma keeps_findLyrics p q : keeps (configured O J) (findLyrics p q).
Proof. unfold findLyrics. repeat keeps_step. Qed.

Lemma configured_after w e : configured O J w → configured O J (after w e).
Proof.
  intros Hw. destruct e; simpl.
  - by apply keeps_searchSong.
  - by apply keeps_getLyricsById.
  - by apply keeps_getLyricsByMetadata.
  - by apply keeps_getUnsynced.
  - by apply keeps_getSynced.
  - by apply keeps_findLyrics.
  - split; [by destruct Hw|by apply J_clearCache].
  - split; [|by apply J_getCacheStats]. destruct Hw as [HO _].
    unfold getCacheStats.
    by destruct (Cache.clean (now w) (cache (client w))).
  - done.
  - split; [by destruct Hw|by apply J_resetRateLimit].
  - split; [by destruct Hw|]. apply J_advance. by destruct Hw.
Qed.

End client_configured.

Section client_instances.
Import Client.

Lemma options_after w e : options (client (after w e)) = options (client w).
Proof.
  apply (configured_after (options (client w)) (λ _, True)); try done.
Qed.

Lemma cache_stays_empty w e :
  enableCache (options (client w)) = false →
  Cache.cache (cache (client w)) = ∅ →
  Cache.cache (cache (client (after w e))) = ∅.
Proof.
  intros Hoff Hempty.
  apply (configured_after (options (client w))
           (λ w, Cache.cache (cache (client w)) = ∅)); try done.
  - intros _ w' [_ Hw']. unfold check_limit.
    by destruct (RateLimiter.checkLimit (now w') (rateLimiter (client w'))).
  - congruence.
  - congruence.
  - intros w' [_ Hw']. unfold getCacheStats, Cache.clean. simpl.
    rewrite Hw'. apply map_filter_empty.
  - by intros w' [_ Hw'].
Qed.

Lemma limiter_stays_idle w e :
  enableRateLimit (options (client w)) = false →
  RateLimiter.requests (RateLimiter.state (rateLimiter (client w))) = 0
  ∧ RateLimiter.isLimited (RateLimiter.state (rateLimiter (client w))) = false →
  RateLimiter.requests (RateLimiter.state (rateLimiter (client (after w e)))) = 0
  ∧ RateLimiter.isLimited
      (RateLimiter.state (rateLimiter (client (after w e)))) = false.
Proof.
  intros Hoff Hidle.
  apply (configured_after (options (client w))
           (λ w, RateLimiter.requests
                   (RateLimiter.state (rateLimiter (client w))) = 0
                 ∧ RateLimiter.isLimited
                     (RateLimiter.state (rateLimiter (client w))) = false));
    try done.
  - congruence.
  - intros _ w' k [_ Hw']. unfold cache_get.
    by destruct (Cache.get (now w') k (cache (client w'))).
  - by intros _ w' k v [_ Hw'].
  - by intros w' [_ Hw'].
  - intros w' [_ Hw']. unfold getCacheStats.
    by destruct (Cache.clean (now w') (cache (client w'))).
Qed.


End client_instances.

(** X19: a stage that is switched off is skipped: in every world that a
    client created with [enableCache = false] can reach the cache is empty,
    and in every world that a client created with [enableRateLimit = false]
    can reach the limiter has counted no request and is not limited.  The
    options of a client never change. *)
Theorem disabled_stages_are_skipped (w : Client.World) (e : Client.event) :
  Client.reachable w →
  Client.options (Client.client (Client.after w e))
  = Client.options (Client.client w)
  ∧ (Client.enableCache (Client.options (Client.client w)) = false →
     Cache.cache (Client.cache (Client.client w)) = ∅)
  ∧ (Client.enableRateLimit (Client.options (Client.client w)) = false →
     RateLimiter.requests
       (RateLimiter.state (Client.rateLimiter (Client.client w))) = 0
     ∧ RateLimiter.isLimited
         (RateLimiter.state (Client.rateLimiter (Client.client w))) = false).
Proof.
  intros Hw. split; [apply options_after|].
  induction Hw as [o t0|w e' Hw [IH1 IH2]]; [by split|].
  rewrite options_after. split.
  - intros Hoff. apply cache_stays_empty; auto.
  - intros Hoff. apply limiter_stays_idle; auto.
Qed.

Lemma disabled_stages_are_skipped_witness :
  let w := Client.after
             (Client.new (Client.mkClientOptions (Some false) None (Some false)
                            None None None) 0)
             (Client.SearchSong
                (Client.mkLrclib
                   (λ _, Client.Resolves 5
                           (Some (mkMetadata 1 "s" "s" "a" "al" 1 false None
                                    None)))
                   (λ _, Client.Pending) (λ _, Client.Pending))
                (mkPartial (VStr "s") (VStr "a") VUndefined)
                (Client.mkSearchOptions None None None)) in
  Cache.cache (Client.cache (Client.client w)) = ∅.
Proof.
  intros w.
  destruct (disabled_stages_are_skipped w Client.ClearCache) as (_ & H & _).
  - apply Client.reachable_after, Client.reachable_new.
  - apply H. reflexivity.
Defined.



(** ** What the methods of the client throw *)

Section client_errors.
Import Client.

Lemma validateQuery_throws q e :
  Utils.validateQuery q = Throw e → is_ValidationError e.
Proof.
  unfold Utils.validateQuery, is_ValidationError.
  repeat case_match; intros [= <-]; eauto.
Qed.

Lemma rethrow_cases keep prefix e :
  (keep = true ∧ is_NotFoundError (rethrow keep prefix e))
  ∨ wrapped prefix (rethrow keep prefix e).
Proof.
  unfold rethrow, is_NotFoundError, wrapped.
  destruct e, keep; eauto.
Qed.

Lemma try_catch_rethrow {A} (m : M A) keep prefix w e w' :
  try_catch m (λ error, throw (rethrow keep prefix error)) w = (Throw e, w') →
  (keep = true ∧ is_NotFoundError e) ∨ wrapped prefix e.
Proof.
  unfold try_catch, throw. destruct (m w) as [[a|e0] w0]; [done|].
  intros [= <- <-]. apply rethrow_cases.
Qed.

(** The part of a method after the validation: the look-up in the cache,
    then the [try] block. *)
Lemma cached_or_try_throws {A} (key : string) (found : Cached → M A)
    (body : Options → M A) keep prefix w e w' :
  (∀ c w1 w2, found c w1 ≠ (Throw e, w2)) →
  bind get_options
    (λ o, bind (if enableCache o then cache_get key else ret None)
            (λ cached,
               match cached with
               | Some cached => found cached
               | None =>
                 try_catch (body o)
                   (λ error, throw (rethrow keep prefix error))
               end)) w
  = (Throw e, w') →
  (keep = true ∧ is_NotFoundError e) ∨ wrapped prefix e.
Proof.
  intros Hfound. unfold bind at 1. unfold get_options. unfold bind.
  destruct (enableCache (options (client w))).
  - unfold cache_get.
    destruct (Cache.get (now w) key (cache (client w))) as [[c|] cache'].
    + intros H. by apply Hfound in H.
    + apply try_catch_rethrow.
  - unfold ret at 1. apply try_catch_rethrow.
Qed.

End client_errors.

(** X21: the errors that leave the methods of the client.  [searchSong] and
    [findLyrics] throw a [ValidationError], a [NotFoundError] or a plain
    [Error] with their prefix; [getLyricsByMetadata] and [getLyricsById] a
    [NotFoundError] or a plain [Error] with their prefix; [getUnsynced] and
    [getSynced] a [ValidationError] or a plain [Error] with their prefix.
    So no [RateLimitError] and no [TimeoutError] leaves the client: both
    arrive wrapped in a plain [Error]. *)
Theorem client_errors_are_wrapped (p : Client.LrclibClient)
    (q : PartialQuery) (w w' : Client.World) (e : error) :
  (∀ o, Client.searchSong p q o w = (Throw e, w') →
     is_ValidationError e ∨ is_NotFoundError e ∨ wrapped "Search failed: " e)
  ∧ (Client.findLyrics p q w = (Throw e, w') →
     is_ValidationError e ∨ is_NotFoundError e
     ∨ wrapped "Failed to find lyrics: " e)
  ∧ (∀ m o, Client.getLyricsByMetadata p m o w = (Throw e, w') →
     is_NotFoundError e ∨ wrapped "Failed to get lyrics by metadata: " e)
  ∧ (∀ trackId o, Client.getLyricsById trackId o w = (Throw e, w') →
     is_NotFoundError e ∨ wrapped "Failed to get lyrics by ID: " e)
  ∧ (∀ o, Client.getUnsynced p q o w = (Throw e, w') →
     is_ValidationError e ∨ wrapped "Failed to get unsynced lyrics: " e)
  ∧ (∀ o, Client.getSynced p q o w = (Throw e, w') →
     is_ValidationError e ∨ wrapped "Failed to get synced lyrics: " e).
Proof.
  repeat split.
  - intros o. unfold Client.searchSong. unfold Client.bind at 1, Client.lift.
    destruct (Utils.validateQuery q) as [vq|e0] eqn:E.
    + intros H. apply cached_or_try_throws in H; [tauto|done].
    + intros [= <- <-]. left. by eapply validateQuery_throws.
  - unfold Client.findLyrics. unfold Client.bind at 1, Client.lift.
    destruct (Utils.validateQuery q) as [vq|e0] eqn:E.
    + intros H. apply cached_or_try_throws in H; [tauto|done].
    + intros [= <- <-]. left. by eapply validateQuery_throws.
  - intros m o. unfold Client.getLyricsByMetadata.
    intros H. apply cached_or_try_throws in H; [tauto|done].
  - intros trackId o. unfold Client.getLyricsById.
    intros H. apply cached_or_try_throws in H; [tauto|done].
  - intros o. unfold Client.getUnsynced. unfold Client.bind at 1, Client.lift.
    destruct (Utils.validateQuery q) as [vq|e0] eqn:E.
    + intros H. apply cached_or_try_throws in H; [|done].
      destruct H as [[? _]|?]; [done|by right].
    + intros [= <- <-]. left. by eapply validateQuery_throws.
  - intros o. unfold Client.getSynced. unfold Client.bind at 1, Client.lift.
    destruct (Utils.validateQuery q) as [vq|e0] eqn:E.
    + intros H. apply cached_or_try_throws in H; [|done].
      destruct H as [[? _]|?]; [done|by right].
    + intros [= <- <-]. left. by eapply validateQuery_throws.
Qed.

Lemma client_errors_are_wrapped_witness :
  let p := Client.mkLrclib (λ _, Client.Pending) (λ _, Client.Pending)
             (λ _, Client.Pending) in
  let w := Client.new (Client.mkClientOptions None None None None None None) 0 in
  let q := mkPartial (VStr "Song") (VStr "Artist") VUndefined in
  let o := Client.mkFormatOptions None None in
  (Client.getUnsynced p q o w).1
  = Throw (Error "Failed to get unsynced lyrics: Request timeout")
  ∧ (is_ValidationError
       (Error "Failed to get unsynced lyrics: Request timeout")
     ∨ wrapped "Failed to get unsynced lyrics: "
         (Error "Failed to get unsynced lyrics: Request timeout")).
Proof.
  intros p w q o. split; [reflexivity|].
  destruct (client_errors_are_wrapped p q w (Client.getUnsynced p q o w).2
              (Error "Failed to get unsynced lyrics: Request timeout"))
    as (_ & _ & _ & _ & H & _).
  apply (H o). reflexivity.
Defined.

(** ** Cache hits of the client *)

Section client_cache_hit.
Import Client.

Lemma set_cache_same w : set_cache w (cache (client w)) = w.
Proof. by destruct w as [[c rl o] t]. Qed.

Lemma withTimeout_client {A} (fn : promise A) timeoutMs w :
  client (withTimeout fn timeoutMs w).2 = client w.
Proof. unfold withTimeout. by repeat case_match. Qed.

Lemma get_Some_inv {T} now key (c c' : Cache.t T) v :
  Cache.get now key c = (Some v, c') → c' = c.
Proof.
  unfold Cache.get. destruct (Cache.cache c !! key) as [e|]; [|done].
  destruct (Cache.expired now e); [done|]. by intros [= _ <-].
Qed.

Lemma get_defaultTTL {T} now key (c : Cache.t T) :
  Cache.defaultTTL (Cache.get now key c).2 = Cache.defaultTTL c.
Proof.
  unfold Cache.get. destruct (Cache.cache c !! key) as [e|]; [|done].
  by destruct (Cache.expired now e).
Qed.

Lemma get_after_set {T} now key (c : Cache.t T) v :
  0 ≤ Cache.defaultTTL c →
  Cache.get now key (Cache.set now key v None c)
  = (Some v, Cache.set now key v None c).
Proof.
  intros Httl. unfold Cache.get, Cache.set, Cache.expired. simpl.
  rewrite lookup_insert_eq. simpl.
  by destruct (Cache.defaultTTL c <? now - now) eqn:E; zbool; [lia|].
Qed.

Lemma ttl_ok_advance w dt : ttl_ok w → ttl_ok (advance dt w).
Proof. done. Qed.

Lemma ttl_ok_check_limit w : ttl_ok w → ttl_ok (check_limit w).2.
Proof.
  unfold ttl_ok, check_limit.
  by destruct (RateLimiter.checkLimit (now w) (rateLimiter (client w))).
Qed.

Lemma ttl_ok_cache_get w k : ttl_ok w → ttl_ok (cache_get k w).2.
Proof.
  unfold ttl_ok, cache_get. intros Hw.
  pose proof (get_defaultTTL (now w) k (cache (client w))) as H.
  destruct (Cache.get (now w) k (cache (client w))) as [r c]. simpl in *.
  by rewrite H.
Qed.

Lemma ttl_ok_cache_set w k v : ttl_ok w → ttl_ok (cache_set k v w).2.
Proof. done. Qed.

Lemma keeps_ttl_bind {A B} o (m : M A) (k : A → M B) w a w' :
  keeps (configured o ttl_ok) m →
  configured o ttl_ok w → m w = (Ok a, w') → configured o ttl_ok w'.
Proof. intros Hm Hw E. specialize (Hm w Hw). by rewrite E in Hm. Qed.

Lemma ends_stored_bind {A} key o (m : M A) (k : A → M Cached) :
  keeps (configured o ttl_ok) m →
  (∀ a, ends_stored key o (k a)) →
  ends_stored key o (bind m k).
Proof.
  intros Hm Hk w1 r w2 Hw1. unfold bind.
  specialize (Hm w1 Hw1). destruct (m w1) as [[a|e] w]; [|done].
  by apply Hk.
Qed.

Lemma ends_stored_throw key o e : ends_stored key o (throw e).
Proof. by intros w1 r w2 _. Qed.

Lemma ends_stored_set key o v :
  enableCache o = true →
  ends_stored key o
    (bind (when (enableCache o) (cache_set key v)) (λ _, ret v)).
Proof.
  intros Hon w1 r w2 [Ho Httl]. rewrite Hon. unfold bind, when, cache_set, ret.
  intros [= <- <-]. simpl. split; [|done]. by apply get_after_set.
Qed.

Lemma try_catch_Ok {A} (m : M A) (f : error → error) w r w' :
  try_catch m (λ error, throw (f error)) w = (Ok r, w') → m w = (Ok r, w').
Proof. unfold try_catch, throw. by destruct (m w) as [[a|e] w0]. Qed.

(** A second call finds what the first one stored. *)
Lemma cached_or_try_repeat (key : string) (body body' : Options → M Cached)
    (f : error → error) w r w' :
  enableCache (options (client w)) = true →
  ttl_ok w →
  ends_stored key (options (client w)) (body (options (client w))) →
  bind get_options
    (λ o, bind (if enableCache o then cache_get key else ret None)
            (λ cached,
               match cached with
               | Some cached => ret cached
               | None => try_catch (body o) (λ error, throw (f error))
               end)) w
  = (Ok r, w') →
  bind get_options
    (λ o, bind (if enableCache o then cache_get key else ret None)
            (λ cached,
               match cached with
               | Some cached => ret cached
               | None => try_catch (body' o) (λ error, throw (f error))
               end)) w'
  = (Ok r, w').
Proof.
  intros Hon Httl Hbody.
  assert (Hhit : ∀ w0, enableCache (options (client w0)) = true →
    Cache.get (now w0) key (cache (client w0)) = (Some r, cache (client w0)) →
    bind get_options
      (λ o, bind (if enableCache o then cache_get key else ret None)
              (λ cached,
                 match cached with
                 | Some cached => ret cached
                 | None => try_catch (body' o) (λ error, throw (f error))
                 end)) w0
    = (Ok r, w0)).
  { intros w0 Hon0 Hget. unfold bind at 1. unfold get_options.
    rewrite Hon0. unfold bind, cache_get. rewrite Hget. unfold ret.
    by rewrite set_cache_same. }
  unfold bind at 1. unfold get_options. rewrite Hon.
  unfold bind at 1. unfold cache_get at 1.
  destruct (Cache.get (now w) key (cache (client w))) as [[c|] c'] eqn:Hget.
  - pose proof (get_Some_inv _ _ _ _ _ Hget) as ->.
    unfold ret. rewrite set_cache_same. intros [= <- <-]. by apply Hhit.
  - intros H%try_catch_Ok. apply Hbody in H as [H1 H2].
    + apply Hhit; [by rewrite H2|done].
    + split; [done|]. unfold ttl_ok in *. simpl.
      pose proof (get_defaultTTL (now w) key (cache (client w))) as Hd.
      rewrite Hget in Hd. simpl in Hd. by rewrite Hd.
Qed.

End client_cache_hit.

(** The steps of a [try] block that ends by storing its result. *)
Ltac ends_stored_step Hon :=
  first
    [ apply ends_stored_throw
    | apply ends_stored_set; exact Hon
    | apply ends_stored_bind; [repeat keeps_step|intros ?]
    | progress cbv zeta
    | match goal with
      | |- ends_stored _ _ (match ?x with _ => _ end) => destruct x
      end ].

Section client_repeat.
Import Client.
Variable o : Options.
Hypothesis cache_on : enableCache o = true.

Let J_advance : ∀ w dt, ttl_ok w → ttl_ok (advance dt w) := ttl_ok_advance.
Let J_check_limit :
  enableRateLimit o = true →
  ∀ w, configured o ttl_ok w → ttl_ok (check_limit w).2 :=
  λ _ w Hw, ttl_ok_check_limit w (proj2 Hw).
Let J_cache_get :
  enableCache o = true →
  ∀ w k, configured o ttl_ok w → ttl_ok (cache_get k w).2 :=
  λ _ w k Hw, ttl_ok_cache_get w k (proj2 Hw).
Let J_cache_set :
  enableCache o = true →
  ∀ w k v, configured o ttl_ok w → ttl_ok (cache_set k v w).2 :=
  λ _ w k v Hw, ttl_ok_cache_set w k v (proj2 Hw).

Lemma searchSong_body_stores key (fn : promise (option TrackMetadata))
    vq lim :
  ends_stored key o
    (bind (when (enableRateLimit o) check_limit)
       (λ _, bind (withTimeout fn (requestTimeout o))
          (λ rawMetadata,
             match rawMetadata with
             | None =>
               throw (NotFoundError "No lyrics found for the given query")
             | Some rawMetadata =>
               let metadata := adaptLrclibMetadata rawMetadata in
               let searchResult := Utils.createSearchResult metadata vq in
               let results := slice_one searchResult lim in
               bind (when (enableCache o) (cache_set key (CResults results)))
                 (λ _, ret (CResults results))
             end))).
Proof. repeat ends_stored_step cache_on. Qed.

Lemma findLyrics_body_stores key (fn : promise (option TrackMetadata)) :
  ends_stored key o
    (bind (when (enableRateLimit o) check_limit)
       (λ _, bind (withTimeout fn (requestTimeout o))
          (λ rawMetadata,
             match rawMetadata with
             | None =>
               throw (NotFoundError "No lyrics found for the given query")
             | Some rawMetadata =>
               let metadata := adaptLrclibMetadata rawMetadata in
               bind (when (enableCache o) (cache_set key (CMetadata metadata)))
                 (λ _, ret (CMetadata metadata))
             end))).
Proof. repeat ends_stored_step cache_on. Qed.

Lemma get_lines_body_stores key
    (fn : promise (option (list LyricsLine)))
    (fn' : promise (option TrackMetadata)) includeMetadata format :
  ends_stored key o
    (bind (when (enableRateLimit o) check_limit)
       (λ _, bind (withTimeout fn (requestTimeout o))
          (λ rawLyrics,
             let lyrics := adaptLrclibLyrics rawLyrics in
             bind (if default false includeMetadata
                   then bind (withTimeout fn' (requestTimeout o))
                          (λ rawMetadata,
                             ret (adaptLrclibMetadata <$> rawMetadata))
                   else ret None)
               (λ metadata,
                  bind (lift (Utils.formatLyrics lyrics format metadata))
                    (λ formattedLyrics,
                       bind (when (enableCache o)
                               (cache_set key (CLyrics formattedLyrics)))
                         (λ _, ret (CLyrics formattedLyrics))))))).
Proof. repeat ends_stored_step cache_on. Qed.

End client_repeat.

(** X22: with the cache switched on and a default lifetime that is not
    negative, a call of [searchSong], [findLyrics], [getUnsynced] or
    [getSynced] that returned is answered from the cache when it is repeated
    at once: the same result comes back whatever the provider would now do,
    and the world is left as it is (the limiter counts nothing, no time
    passes). *)
Theorem repeated_call_is_served_from_cache (p p' : Client.LrclibClient)
    (q : PartialQuery) (w w' : Client.World) (r : Client.Cached) :
  Client.enableCache (Client.options (Client.client w)) = true →
  0 ≤ Cache.defaultTTL (Client.cache (Client.client w)) →
  (∀ o, Client.searchSong p q o w = (Ok r, w') →
        Client.searchSong p' q o w' = (Ok r, w'))
  ∧ (Client.findLyrics p q w = (Ok r, w') →
     Client.findLyrics p' q w' = (Ok r, w'))
  ∧ (∀ o, Client.getUnsynced p q o w = (Ok r, w') →
          Client.getUnsynced p' q o w' = (Ok r, w'))
  ∧ (∀ o, Client.getSynced p q o w = (Ok r, w') →
          Client.getSynced p' q o w' = (Ok r, w')).
Proof.
  intros Hon Httl. repeat split.
  - intros o. unfold Client.searchSong.
    unfold Client.bind at 1 12, Client.lift.
    destruct (Utils.validateQuery q) as [vq|e0]; [|done].
    apply cached_or_try_repeat; [done|done|].
    by apply searchSong_body_stores.
  - unfold Client.findLyrics.
    unfold Client.bind at 1 12, Client.lift.
    destruct (Utils.validateQuery q) as [vq|e0]; [|done].
    apply cached_or_try_repeat; [done|done|].
    by apply findLyrics_body_stores.
  - intros o. unfold Client.getUnsynced.
    unfold Client.bind at 1 12, Client.lift.
    destruct (Utils.validateQuery q) as [vq|e0]; [|done].
    apply cached_or_try_repeat; [done|done|].
    by apply get_lines_body_stores.
  - intros o. unfold Client.getSynced.
    unfold Client.bind at 1 12, Client.lift.
    destruct (Utils.validateQuery q) as [vq|e0]; [|done].
    apply cached_or_try_repeat; [done|done|].
    by apply get_lines_body_stores.
Qed.

Lemma repeated_call_is_served_from_cache_witness :
  let found := mkMetadata 1 "Song" "Song" "Artist" "Album" 180 false None None in
  let p := Client.mkLrclib (λ _, Client.Resolves 120 (Some found))
             (λ _, Client.Pending) (λ _, Client.Pending) in
  let p' := Client.mkLrclib (λ _, Client.Pending) (λ _, Client.Pending)
              (λ _, Client.Pending) in
  let w := Client.new (Client.mkClientOptions None None None None None None) 0 in
  let q := mkPartial (VStr "Song") (VStr "Artist") VUndefined in
  let o := Client.mkSearchOptions None None None in
  ∃ r, Client.searchSong p q o w = (Ok r, (Client.searchSong p q o w).2)
       ∧ Client.searchSong p' q o (Client.searchSong p q o w).2
         = (Ok r, (Client.searchSong p q o w).2).
Proof.
  intros found p p' w q o.
  exists (Client.CResults
            [Utils.createSearchResult found (mkQuery "Song" "Artist" None)]).
  assert (H1 : Client.searchSong p q o w
    = (Ok (Client.CResults
             [Utils.createSearchResult found (mkQuery "Song" "Artist" None)]),
       (Client.searchSong p q o w).2)) by reflexivity.
  split; [exact H1|].
  destruct (repeated_call_is_served_from_cache p p' q w
              (Client.searchSong p q o w).2
              (Client.CResults
                 [Utils.createSearchResult found
                    (mkQuery "Song" "Artist" None)]))
    as (H & _); [reflexivity|simpl; lia|].
  apply (H o). exact H1.
Defined.

(** X23: a call of [getLyricsById] still passes the rate limiter: in every
    world a client can reach it leaves the cache and the clock as they are
    and, with the limiter switched on, leaves the limiter as a call of
    [checkLimit] does, so a call that is admitted counts as a request. *)
Theorem getLyricsById_charges_limiter (w : Client.World) (trackId : Z)
    (options : Client.LyricsOptions) :
  Client.reachable w →
  let w' := (Client.getLyricsById trackId options w).2 in
  Client.cache (Client.client w') = Client.cache (Client.client w)
  ∧ Client.now w' = Client.now w
  ∧ Client.rateLimiter (Client.client w')
    = (if Client.enableRateLimit (Client.options (Client.client w))
       then (RateLimiter.checkLimit (Client.now w)
               (Client.rateLimiter (Client.client w))).2
       else Client.rateLimiter (Client.client w)).
Proof.
  intros Hw%reachable_keys_ok. unfold Client.getLyricsById.
  set (key := Cache.generateKey "lyrics_by_id" _).
  assert (Hmiss : Cache.cache (Client.cache (Client.client w)) !! key = None).
  { apply eq_None_not_Some. intros Hk%Hw.
    by apply lyrics_by_id_key_not_stored in Hk. }
  assert (Hget : ∀ o, (if Client.enableCache o
                        then Client.cache_get key else Client.ret None) w
                       = (Ok None, w)).
  { intros o. destruct (Client.enableCache _); [|done].
    unfold Client.cache_get, Cache.get. rewrite Hmiss.
    by rewrite set_cache_same. }
  unfold Client.bind, Client.get_options. cbv zeta. rewrite Hget.
  unfold Client.try_catch, Client.bind, Client.when.
  destruct (Client.enableRateLimit _); [|done].
  unfold Client.check_limit.
  destruct (RateLimiter.checkLimit _ _) as [[[]|e] rl];
    by destruct w as [[c rl0 o] t].
Qed.

Lemma getLyricsById_charges_limiter_witness :
  RateLimiter.requests
    (RateLimiter.state
       (Client.rateLimiter
          (Client.client
             (Client.getLyricsById 7 (Client.mkLyricsOptions None None None)
                (Client.new
                   (Client.mkClientOptions None None None None None None)
                   0)).2)))
  = 1.
Proof.
  destruct (getLyricsById_charges_limiter
    (Client.new (Client.mkClientOptions None None None None None None) 0)
    7 (Client.mkLyricsOptions None None None)) as (_ & _ & H).
  - apply Client.reachable_new.
  - rewrite H. reflexivity.
Defined.

(** X24: when the provider answers that it has no lyrics ([null]),
    [getUnsynced] and [getSynced] do not throw a [NotFoundError]: with the
    cache and the limiter switched off and no metadata asked for, they
    return the empty lyrics, [[]] as JSON (the default) and the empty string
    as plain text, and as LRC they throw the plain [Error] that wraps the
    [ValidationError] of the formatter. *)
Theorem absent_lyrics_are_empty_lyrics (p : Client.LrclibClient)
    (q : PartialQuery) (vq : LyricsQuery) (w : Client.World)
    (latency : Z) (format : option LyricsFormat) :
  Utils.validateQuery q = Ok vq →
  Client.enableCache (Client.options (Client.client w)) = false →
  Client.enableRateLimit (Client.options (Client.client w)) = false →
  latency < Client.requestTimeout (Client.options (Client.client w)) →
  let o := Client.mkFormatOptions None format in
  let answer (prefix : string) : result Client.Cached :=
    match format with
    | Some plain => Ok (Client.CLyrics (mkFormatted "" plain None))
    | Some lrc =>
      Throw (Error (prefix +:+ "LRC format requires synced lyrics"))
    | _ => Ok (Client.CLyrics (mkFormatted "[]" json None))
    end in
  (Client.lrclib_getUnsynced p (Client.adaptQueryForLrclib vq)
   = Client.Resolves latency None →
   Client.getUnsynced p q o w
   = (answer "Failed to get unsynced lyrics: ", Client.advance latency w))
  ∧ (Client.lrclib_getSynced p (Client.adaptQueryForLrclib vq)
     = Client.Resolves latency None →
     Client.getSynced p q o w
     = (answer "Failed to get synced lyrics: ", Client.advance latency w)).
Proof.
  intros Hq Hcache Hlimit Hlat o answer.
  assert (Hlt : (latency
                 <? Client.requestTimeout (Client.options (Client.client w)))
                = true) by (apply Z.ltb_lt; lia).
  split; intros Hp.
  - unfold Client.getUnsynced, Client.bind, Client.lift, Client.get_options,
      Client.try_catch, Client.when, Client.withTimeout, Client.ret.
    rewrite Hq, Hcache, Hlimit, Hp, Hlt. unfold answer.
    by destruct format as [[]|].
  - unfold Client.getSynced, Client.bind, Client.lift, Client.get_options,
      Client.try_catch, Client.when, Client.withTimeout, Client.ret.
    rewrite Hq, Hcache, Hlimit, Hp, Hlt. unfold answer.
    by destruct format as [[]|].
Qed.

Lemma absent_lyrics_are_empty_lyrics_witness :
  let p := Client.mkLrclib (λ _, Client.Pending)
             (λ _, Client.Resolves 30 None) (λ _, Client.Resolves 30 None) in
  let w := Client.new (Client.mkClientOptions (Some false) None (Some false)
                         None None None) 0 in
  Client.getSynced p (mkPartial (VStr "Song") (VStr "Artist") VUndefined)
    (Client.mkFormatOptions None (Some lrc)) w
  = (Throw (Error
       "Failed to get synced lyrics: LRC format requires synced lyrics"),
     Client.advance 30 w).
Proof.
  intros p w.
  destruct (absent_lyrics_are_empty_lyrics p
              (mkPartial (VStr "Song") (VStr "Artist") VUndefined)
              (mkQuery "Song" "Artist" None) w 30 (Some lrc))
    as [_ H]; [reflexivity|reflexivity|reflexivity|simpl; lia|].
  apply H. reflexivity.
Defined.
